(** * Turn-based combat: the choose-action state and the combat presentation

    A shallow embedding of
    - [CombatChooseActionStateComponent] (the [choose-action] state of the
      combat state machine, with the closures [choose], [next] and
      [chooseSubmit] that its [enter] method creates), and
    - [CombatComponent] (the presentation layer: [applyDamage], [shake] and
      the three event handlers bound by [_bindRenderCombat]).

    JavaScript objects that are shared by reference (the combat machine, the
    state component, the sub-machine) live in one explicit store; methods are
    computations in a state-and-exception monad in which the mutations made
    before a [throw] persist, as they do in JavaScript. *)

From Stdlib Require Import QArith.
From stdpp Require Import gmap strings list fin_maps pretty.

Open Scope Z_scope.
Open Scope string_scope.

(** * Part I: the choose-action state, definitions *)

(** ** Data model *)

(** [Point] of pow-core: a pair of numbers. *)
Record Point := mkPoint { point_x : Q; point_y : Q }.

(** The classes an entity object can be an instance of. Both component
    classes extend [GameEntityObject]. *)
Inductive EntityClass :=
| PlainEntity
| CombatPlayerComponent
| CombatEnemyComponent.

(** A combatant on the scene: [_uid], [model.name], [model.hp], [point] and
    its dynamic class. *)
Record GameEntityObject := mkEntity {
  _uid : string;
  model_name : string;
  model_hp : Z;
  point : Point;
  entity_class : EntityClass;
}.

(** [CombatActionBehavior]: the acting entity [from], the target [to] and
    the name reported by [getActionName()]. *)
Record CombatActionBehavior := mkAction {
  from : GameEntityObject;
  to : option GameEntityObject;
  getActionName : string;
}.

(** [ITemplateBaseItem]: an inventory item template. *)
Record ITemplateBaseItem := mkItem { item_id : string }.

(** The [source] union of [ICombatMenuItem]; the constructor records which
    [instanceof] test succeeds. *)
Inductive MenuSource :=
| SourceEntity (e : GameEntityObject)
| SourceAction (a : CombatActionBehavior)
| SourceItem (i : ITemplateBaseItem).

Record ICombatMenuItem := mkMenuItem {
  label : string;
  source : MenuSource;
}.

(** Modelled from the spec: the string-literal type [CombatStateNames] is
    declared in [./states], which is not part of the sources; the names are
    the states of section 4.1. *)
Inductive CombatStateNames :=
| choose_action
| begin_turn
| end_turn
| victory
| defeat
| escape.

Record Scene := mkScene { scene_name : string }.

(** The fields of [CombatStateMachineComponent] that the choose-action state
    reads and writes. [currentState] is the state last selected with
    [setCurrentState]. *)
Record CombatStateMachineComponent := mkMachine {
  scene : option Scene;
  party : list GameEntityObject;
  enemies : list GameEntityObject;
  turnList : list GameEntityObject;
  current : option GameEntityObject;
  currentDone : bool;
  playerChoices : gmap string CombatActionBehavior;
  currentState : CombatStateNames;
}.

(** [IChooseActionEvent] without its [choose] member: the closure is the
    function [choose] below, applied to the store. *)
Record IChooseActionEvent := mkChooseData {
  players : list GameEntityObject;
  chooseData_enemies : list GameEntityObject;
}.

(** Modelled from the spec: [ChooseActionStateMachine] lives in
    [../behaviors/choose-action.machine], which is not part of the sources.
    It is constructed with the scene, the event payload and the relay
    function, and exposes [current], [target] and the name of its current
    state. *)
Record ChooseActionStateMachine := mkSubMachine {
  sub_scene : Scene;
  data : IChooseActionEvent;
  sub_current : option GameEntityObject;
  target : option GameEntityObject;
  sub_currentState : option string;
}.

(** The fields of [CombatChooseActionStateComponent]. [machine] is a
    reference to the one combat machine of the store, or null;
    [pointerElementRef] is the class list of the pointer element. *)
Record CombatChooseActionStateComponent := mkChooseState {
  pending : list GameEntityObject;
  machine : bool;
  pointerOffset : Point;
  pointAt : option GameEntityObject;
  pointOffset : Point;
  pointerElementRef : list string;
  _currentMachine : option ChooseActionStateMachine;
}.

(** The store: the combat machine object, the state component, the variable
    [choices] captured by the closures of [enter], and the console. *)
Record Store := mkStore {
  the_machine : CombatStateMachineComponent;
  this : CombatChooseActionStateComponent;
  choices : list GameEntityObject;
  console : list string;
}.

(** ** Exceptions and the monad *)

(** What can be thrown: [new Error(message)] and the [TypeError] of a null
    dereference. [InvalidChoiceError] is the error that the specification
    names for a rejected submission; no method below throws it. *)
Inductive Exception :=
| Error (message : string)
| TypeError
| InvalidChoiceError.

Inductive Completion (A : Type) :=
| Normal (a : A)
| Throw (e : Exception).
Arguments Normal {A} a.
Arguments Throw {A} e.

Definition M (A : Type) : Type := Store -> Completion A * Store.

Definition ret {A} (a : A) : M A := fun s => (Normal a, s).

Definition bind {A B} (m : M A) (f : A -> M B) : M B :=
  fun s => match m s with
           | (Normal a, s') => f a s'
           | (Throw e, s') => (Throw e, s')
           end.

Definition throw {A} (e : Exception) : M A := fun s => (Throw e, s).
Definition get : M Store := fun s => (Normal s, s).
Definition modify (f : Store -> Store) : M unit := fun s => (Normal tt, f s).

Declare Scope js_scope.
Delimit Scope js_scope with js.
Notation "x <- m ;; k" := (bind m (fun x => k))
  (at level 100, m at next level, right associativity) : js_scope.
Notation "m ;;; k" := (bind m (fun _ => k))
  (at level 100, right associativity) : js_scope.
Open Scope js_scope.

(** Field updates of the shared objects. *)
Definition with_machine (f : CombatStateMachineComponent -> CombatStateMachineComponent)
  (s : Store) : Store :=
  mkStore (f (the_machine s)) (this s) (choices s) (console s).

Definition with_this (f : CombatChooseActionStateComponent -> CombatChooseActionStateComponent)
  (s : Store) : Store :=
  mkStore (the_machine s) (f (this s)) (choices s) (console s).

Definition set_choices (l : list GameEntityObject) (s : Store) : Store :=
  mkStore (the_machine s) (this s) l (console s).

Definition console_log (msg : string) : M unit :=
  modify (fun s => mkStore (the_machine s) (this s) (choices s) (console s ++ [msg])%list).

Definition set_turnList l (m : CombatStateMachineComponent) :=
  mkMachine (scene m) (party m) (enemies m) l (current m) (currentDone m)
    (playerChoices m) (currentState m).
Definition set_current c (m : CombatStateMachineComponent) :=
  mkMachine (scene m) (party m) (enemies m) (turnList m) c (currentDone m)
    (playerChoices m) (currentState m).
Definition set_currentDone b (m : CombatStateMachineComponent) :=
  mkMachine (scene m) (party m) (enemies m) (turnList m) (current m) b
    (playerChoices m) (currentState m).
Definition set_playerChoices pc (m : CombatStateMachineComponent) :=
  mkMachine (scene m) (party m) (enemies m) (turnList m) (current m)
    (currentDone m) pc (currentState m).
Definition set_currentState st (m : CombatStateMachineComponent) :=
  mkMachine (scene m) (party m) (enemies m) (turnList m) (current m)
    (currentDone m) (playerChoices m) st.

Definition set_pending l (c : CombatChooseActionStateComponent) :=
  mkChooseState l (machine c) (pointerOffset c) (pointAt c) (pointOffset c)
    (pointerElementRef c) (_currentMachine c).
Definition set_machine b (c : CombatChooseActionStateComponent) :=
  mkChooseState (pending c) b (pointerOffset c) (pointAt c) (pointOffset c)
    (pointerElementRef c) (_currentMachine c).
Definition set_pointAt e (c : CombatChooseActionStateComponent) :=
  mkChooseState (pending c) (machine c) (pointerOffset c) e (pointOffset c)
    (pointerElementRef c) (_currentMachine c).
Definition set_pointOffset p (c : CombatChooseActionStateComponent) :=
  mkChooseState (pending c) (machine c) (pointerOffset c) (pointAt c) p
    (pointerElementRef c) (_currentMachine c).
Definition set_pointerElementRef cl (c : CombatChooseActionStateComponent) :=
  mkChooseState (pending c) (machine c) (pointerOffset c) (pointAt c)
    (pointOffset c) cl (_currentMachine c).
Definition set__currentMachine sm (c : CombatChooseActionStateComponent) :=
  mkChooseState (pending c) (machine c) (pointerOffset c) (pointAt c)
    (pointOffset c) (pointerElementRef c) sm.

Definition set_sub_current e (sm : ChooseActionStateMachine) :=
  mkSubMachine (sub_scene sm) (data sm) e (target sm) (sub_currentState sm).
Definition set_target e (sm : ChooseActionStateMachine) :=
  mkSubMachine (sub_scene sm) (data sm) (sub_current sm) e (sub_currentState sm).
Definition set_sub_currentState n (sm : ChooseActionStateMachine) :=
  mkSubMachine (sub_scene sm) (data sm) (sub_current sm) (target sm) n.

(** ** Collaborators of the choose-action state *)

(** Modelled from the spec: [isDefeated] belongs to the entity classes, which
    are not part of the sources; liveness is "hit points > 0". *)
Definition isDefeated (e : GameEntityObject) : bool := (model_hp e <=? 0)%Z.

(** Modelled from the spec: [getLiveParty] and [getLiveEnemies] belong to
    [CombatStateMachineComponent], which is not part of the sources; they
    return the living party members and the living enemies, in roster
    order. *)
Definition getLiveParty (m : CombatStateMachineComponent) : list GameEntityObject :=
  List.filter (fun e => negb (isDefeated e)) (party m).
Definition getLiveEnemies (m : CombatStateMachineComponent) : list GameEntityObject :=
  List.filter (fun e => negb (isDefeated e)) (enemies m).

(** Modelled from the spec: [setCurrentState] belongs to the state-machine
    base class, which is not part of the sources; a transition makes the
    named state the current one. *)
Definition setCurrentState (st : CombatStateNames) : M unit :=
  modify (with_machine (set_currentState st)).

(** ** The closures created by [enter] *)

(** [chooseData.choose]. *)
Definition choose (action : CombatActionBehavior) : M unit :=
  modify (with_machine (fun m =>
    set_playerChoices (<[ _uid (from action) := action ]> (playerChoices m)) m)) ;;;
  modify (with_this (fun c =>
    set_pending
      (List.filter (fun p => negb (String.eqb (_uid (from action)) (_uid p))) (pending c)) c)) ;;;
  console_log (model_name (from action) ++ " chose " ++ getActionName action) ;;;
  s <- get ;;
  if (length (pending (this s)) =? 0)%nat
  then setCurrentState begin_turn
  else ret tt.

(** [next]: the advance step of the sub-machine. [choices.shift()] removes
    the first element before the null test; dereferencing a null
    [_currentMachine] is a [TypeError]. *)
Definition next : M unit :=
  s <- get ;;
  match choices s with
  | [] => modify (with_this (set__currentMachine None))
  | p :: rest =>
      modify (set_choices rest) ;;;
      match _currentMachine (this s) with
      | None => throw TypeError
      | Some sm =>
          modify (with_this (set__currentMachine
            (Some (set_sub_currentState (Some "choose-action")
                     (set_sub_current (Some p) sm)))))
      end
  end.

(** [chooseSubmit]: [this._currentMachine.data.choose(action); next()]. *)
Definition chooseSubmit (action : CombatActionBehavior) : M unit :=
  s <- get ;;
  match _currentMachine (this s) with
  | None => throw TypeError
  | Some _ => choose action ;;; next
  end.

(** ** Methods of the state component *)

(** [machine.turnList.shift()]: removes the first entry and returns it, or
    returns undefined when the list is empty. *)
Definition turnList_shift : M (option GameEntityObject) :=
  s <- get ;;
  modify (with_machine (set_turnList (tail (turnList (the_machine s))))) ;;;
  ret (head (turnList (the_machine s))).

Section Enter.

(** [_.shuffle] of underscore: the random permutation drawn at this call. *)
Variable shuffle : list GameEntityObject -> list GameEntityObject.

(** [enter(machine)]. [super.enter] is the empty hook of the base state. *)
Definition enter : M unit :=
  s <- get ;;
  match scene (the_machine s) with
  | None => throw (Error "Invalid Combat Scene")
  | Some sc =>
      modify (with_this (set_machine true)) ;;;
      let combatants := (getLiveParty (the_machine s) ++ getLiveEnemies (the_machine s))%list in
      modify (with_machine (set_turnList (shuffle combatants))) ;;;
      first <- turnList_shift ;;
      modify (with_machine (set_current first)) ;;;
      modify (with_machine (set_currentDone true)) ;;;
      s1 <- get ;;
      modify (with_this (set_pending (getLiveParty (the_machine s1)))) ;;;
      modify (with_machine (set_playerChoices ∅)) ;;;
      s2 <- get ;;
      let chooseData :=
        mkChooseData (pending (this s2)) (getLiveEnemies (the_machine s2)) in
      modify (set_choices (players chooseData)) ;;;
      modify (with_this (set__currentMachine
        (Some (mkSubMachine sc chooseData None None None)))) ;;;
      next
  end.

End Enter.

(** [exit(machine)]. *)
Definition exit : M unit :=
  modify (with_this (set_machine false)).

(** [Renderer2.removeClass] and [addClass] on a class list. *)
Definition removeClass (clazz : string) (cl : list string) : list string :=
  List.filter (fun c => negb (String.eqb c clazz)) cl.
Definition addClass (clazz : string) (cl : list string) : list string :=
  if existsb (String.eqb clazz) cl then cl else (cl ++ [clazz])%list.

(** [setPointerTarget(object, directionClass)]. *)
Definition setPointerTarget (object : GameEntityObject) (directionClass : string) : M unit :=
  modify (with_this (fun c => set_pointerElementRef
    (addClass directionClass
       (removeClass "right" (removeClass "left" (pointerElementRef c)))) c)) ;;;
  modify (with_this (set_pointAt (Some object))) ;;;
  modify (with_this (fun c => set_pointOffset (pointerOffset c) c)).

(** [pointAtItem(item)]. *)
Definition pointAtItem (item : ICombatMenuItem) : M unit :=
  match source item with
  | SourceEntity e =>
      modify (with_this (set_pointAt (Some e))) ;;;
      setPointerTarget e "left" ;;;
      s <- get ;;
      match _currentMachine (this s) with
      | None => throw TypeError
      | Some sm =>
          modify (with_this (set__currentMachine (Some (set_target (Some e) sm))))
      end
  | _ => ret tt
  end.

(** Running a computation: its completion and the store it leaves. *)
Definition completion {A} (m : M A) (s : Store) : Completion A := fst (m s).
Definition exec {A} (m : M A) (s : Store) : Store := snd (m s).

(** ** Vocabulary of the properties of the choose-action state *)

(** The Pending Set is compared by [_uid], as [choose] does. *)
Definition is_pending (e : GameEntityObject) (s : Store) : Prop :=
  Exists (fun p => _uid p = _uid e) (pending (this s)).

(** The state of the round: Pending Set, Player Choice Map, Turn Order. *)
Definition round_state (s : Store) :
  list GameEntityObject * gmap string CombatActionBehavior * list GameEntityObject :=
  (pending (this s), playerChoices (the_machine s), turnList (the_machine s)).

(** What [pending] is after [choose]. *)
Definition remaining (action : CombatActionBehavior) (l : list GameEntityObject) :
  list GameEntityObject :=
  List.filter (fun p => negb (String.eqb (_uid (from action)) (_uid p))) l.

(** The combatants alive when the round starts. *)
Definition alive_at_start (s : Store) : list GameEntityObject :=
  (getLiveParty (the_machine s) ++ getLiveEnemies (the_machine s))%list.

(** The current acting combatant followed by the remaining Turn Order. *)
Definition acting_order (s : Store) : list GameEntityObject :=
  (option_list (current (the_machine s)) ++ turnList (the_machine s))%list.

(** The store that a successful [enter] leaves, in closed form. *)
Definition entered (shuffle : list GameEntityObject -> list GameEntityObject)
  (sc : Scene) (s : Store) : Store :=
  let m := the_machine s in
  let live := getLiveParty m in
  let shuffled := shuffle (alive_at_start s) in
  let sub := mkSubMachine sc (mkChooseData live (getLiveEnemies m)) in
  mkStore
    (mkMachine (scene m) (party m) (enemies m) (tail shuffled) (head shuffled)
       true ∅ (currentState m))
    (mkChooseState live true (pointerOffset (this s)) (pointAt (this s))
       (pointOffset (this s)) (pointerElementRef (this s))
       (match live with
        | [] => None
        | p :: _ => Some (sub (Some p) None (Some "choose-action"))
        end))
    (tail live)
    (console s).

(** The sub-machine after it has been pointed at combatant [p]. *)
Definition choosing (p : GameEntityObject) (sm : ChooseActionStateMachine) :
  ChooseActionStateMachine :=
  set_sub_currentState (Some "choose-action") (set_sub_current (Some p) sm).

(** The store after an advance that found no combatant. *)
Definition inert (s : Store) : Store :=
  with_this (set__currentMachine None) s.

(** The pointer state written by [setPointerTarget(e, 'left')]. *)
Definition pointed_left (e : GameEntityObject) (c : CombatChooseActionStateComponent) :
  CombatChooseActionStateComponent :=
  mkChooseState (pending c) (machine c) (pointerOffset c) (Some e) (pointerOffset c)
    (addClass "left" (removeClass "right" (removeClass "left" (pointerElementRef c))))
    (_currentMachine c).

(** The sub-machine presents the first pending combatant and the others
    wait in [choices]; or nobody is pending and the sub-machine is gone. *)
Definition presenting (s : Store) : Prop :=
  match _currentMachine (this s) with
  | Some sm => ∃ p, sub_current sm = Some p ∧ pending (this s) = p :: choices s
  | None => pending (this s) = [] ∧ choices s = []
  end.

(** No two combatants of the list share a [_uid]. *)
Definition distinct_uids (l : list GameEntityObject) : Prop := NoDup (_uid <$> l).

(** The party submits in the order of presentation. *)
Fixpoint submit_all (actions : list CombatActionBehavior) : M unit :=
  match actions with
  | [] => ret tt
  | action :: rest => chooseSubmit action ;;; submit_all rest
  end.

(** The Player Choice Map after the actions have been recorded in turn. *)
Definition record_choices (actions : list CombatActionBehavior)
  (pc : gmap string CombatActionBehavior) : gmap string CombatActionBehavior :=
  foldl (fun m action => <[ _uid (from action) := action ]> m) pc actions.

(** * Part II: the presentation layer [CombatComponent], definitions *)

(** ** Data model *)

(** [CombatAttackSummary]. *)
Record CombatAttackSummary := mkAttackSummary {
  damage : Z;
  attacker : GameEntityObject;
  defender : GameEntityObject;
}.

(** [CombatRunSummary] and [CombatDefeatSummary], as the handlers use them. *)
Record CombatRunSummary := mkRunSummary {
  player : GameEntityObject;
  success : bool;
}.
Record CombatDefeatSummary := mkDefeatSummary { }.

(** The three events bound by [_bindRenderCombat], with their payloads. *)
Inductive CombatEvent :=
| combat_attack (data : CombatAttackSummary)
| combat_run (data : CombatRunSummary)
| combat_defeat (data : CombatDefeatSummary).

(** An entry of [damages]. *)
Record DamageClasses := mkClasses { miss : bool; heal : bool }.
Record DamageRecord := mkDamage {
  timeout : Z;
  value : Z;
  classes : DamageClasses;
  position : Point;
}.

(** The functions that the handlers hand to their collaborators: the
    completion token itself, and the arrow function of the defeat handler,
    [() => { this.game.initGame().then(done); }]. *)
Inductive Callback :=
| CompletionToken (token : nat)
| InitGameThen (done : Callback).

(** A call [notify.show(message, done, duration)]. *)
Record Notification := mkNotification {
  message : string;
  done_callback : Callback;
  duration : option Z;
}.

(** A call [shake(el, duration)]. *)
Record Shake := mkShake { shake_el : string; shake_duration : Q }.

(** The fields and inherited methods of [CombatComponent] that the handlers
    use. [worldToScreen] comes from the tile-map view and is supplied by the
    environment. *)
Record CombatComponent := mkCombat {
  camera_point : Point;
  cameraScale : Q;
  worldToScreen : Point -> Q -> Point;
  canvas_offsetLeft : Q;
  canvas_offsetTop : Q;
  damages : list DamageRecord;
}.

(** Modelled from the spec: the synchronization gate of the machine
    ([notifyWait]) is not part of the sources. It hands out single-use
    completion tokens and lets the machine proceed only when none of them is
    outstanding. *)
Record Gate := mkGate {
  issued : nat;
  outstanding : list nat;
}.

(** What has happened, oldest first. *)
Inductive Happening :=
| Waited (token : nat)
| Shown (msg : string)
| Acknowledged (msg : string)
| InitGameCalled
| InitGameResolved
| Invoked (token : nat).

(** The presentation world: the component, the clock read by [new Date()],
    the gate, the notifications on display, the shakes started, the
    [initGame] promises not yet resolved (each with its [then] callback) and
    the history. *)
Record World := mkWorld {
  combat : CombatComponent;
  now : Z;
  gate : Gate;
  shown : list Notification;
  shakes : list Shake;
  reinitialising : list Callback;
  history : list Happening;
}.

Definition record (h : Happening) (w : World) : World :=
  mkWorld (combat w) (now w) (gate w) (shown w) (shakes w) (reinitialising w)
    (history w ++ [h])%list.

(** ** Collaborators of the handlers *)

(** Modelled from the spec: [machine.notifyWait()] returns a fresh
    completion token, which becomes outstanding. *)
Definition notifyWait (w : World) : Callback * World :=
  let t := issued (gate w) in
  (CompletionToken t,
   record (Waited t)
     (mkWorld (combat w) (now w) (mkGate (S t) (outstanding (gate w) ++ [t])%list)
        (shown w) (shakes w) (reinitialising w) (history w))).

(** Modelled from the spec: invoking a completion token releases it; the
    token is single-use, so a later invocation releases nothing. *)
Definition invoke_token (t : nat) (w : World) : World :=
  record (Invoked t)
    (mkWorld (combat w) (now w)
       (mkGate (issued (gate w))
          (List.filter (fun t' => negb (Nat.eqb t' t)) (outstanding (gate w))))
       (shown w) (shakes w) (reinitialising w) (history w)).

(** Modelled from the spec: the machine proceeds past its suspension point
    only when no completion token is outstanding. *)
Definition may_proceed (w : World) : bool :=
  match outstanding (gate w) with
  | [] => true
  | _ => false
  end.

(** Modelled from the spec: [notify.show(msg, done, duration)] belongs to
    the notification service, which is not part of the sources; the message
    is put on display and [done] is kept until it is acknowledged. *)
Definition notify_show (msg : string) (done : Callback) (duration : option Z)
  (w : World) : World :=
  record (Shown msg)
    (mkWorld (combat w) (now w) (gate w)
       (shown w ++ [mkNotification msg done duration])%list
       (shakes w) (reinitialising w) (history w)).

(** Modelled from the spec: [game.initGame()] belongs to the game service,
    which is not part of the sources; it starts the reinitialization and
    returns a promise, and [.then(done)] runs [done] once the promise has
    resolved. *)
Definition initGame_then (done : Callback) (w : World) : World :=
  record InitGameCalled
    (mkWorld (combat w) (now w) (gate w) (shown w) (shakes w)
       (reinitialising w ++ [done])%list (history w)).

(** Calling one of the functions handed to the collaborators. *)
Definition call (cb : Callback) (w : World) : World :=
  match cb with
  | CompletionToken t => invoke_token t w
  | InitGameThen done => initGame_then done w
  end.

(** ** Methods of [CombatComponent] *)

(** [applyDamage(to, value)]. *)
Definition applyDamage (to : GameEntityObject) (value : Z) (w : World) : World :=
  let c := combat w in
  let targetPos :=
    mkPoint (point_x (point to) - point_x (camera_point c))%Q
            (point_y (point to) - (point_y (camera_point c) + (5 # 4)))%Q in
  let screenPos := worldToScreen c targetPos (cameraScale c) in
  let screenPos :=
    mkPoint (point_x screenPos + canvas_offsetLeft c)%Q
            (point_y screenPos + canvas_offsetTop c)%Q in
  let d := mkDamage (now w + 5 * 1000) (Z.abs value)
             (mkClasses (value =? 0)%Z (value <? 0)%Z) screenPos in
  mkWorld
    (mkCombat (camera_point c) (cameraScale c) (worldToScreen c)
       (canvas_offsetLeft c) (canvas_offsetTop c) (damages c ++ [d])%list)
    (now w) (gate w) (shown w) (shakes w) (reinitialising w) (history w).

(** [shake(el, duration = 0.3)]: the animation is started; the promise it
    returns is dropped by the caller. [None] is an omitted [duration]. *)
Definition shake (el : string) (duration : option Q) (w : World) : World :=
  mkWorld (combat w) (now w) (gate w) (shown w)
    (shakes w ++ [mkShake el (default (3 # 10) duration)])%list
    (reinitialising w) (history w).

Definition canvasElementRef : string := "combatCanvas".

(** [e instanceof CombatPlayerComponent]. *)
Definition instanceof_CombatPlayerComponent (e : GameEntityObject) : bool :=
  match entity_class e with
  | CombatPlayerComponent => true
  | _ => false
  end.

(** The handler of [combat:attack]. *)
Definition on_combat_attack (data : CombatAttackSummary) (w : World) : World :=
  let '(_done, w) := notifyWait w in
  let a := model_name (attacker data) in
  let b := model_name (defender data) in
  let msg :=
    if (0 <? damage data)%Z then
      a ++ " attacked " ++ b ++ " for " ++ pretty (damage data) ++ " damage!"
    else if (damage data <? 0)%Z then
      a ++ " healed " ++ b ++ " for " ++ pretty (Z.abs (damage data)) ++ " hit points"
    else
      a ++ " attacked " ++ b ++ ", and MISSED!" in
  let w := applyDamage (defender data) (damage data) w in
  let w :=
    if (0 <? damage data)%Z && instanceof_CombatPlayerComponent (defender data)
    then shake canvasElementRef None w
    else w in
  notify_show msg _done None w.

(** The handler of [combat:run]. *)
Definition on_combat_run (data : CombatRunSummary) (w : World) : World :=
  let '(_done, w) := notifyWait w in
  let msg := model_name (player data) in
  let msg :=
    if success data then msg ++ " bravely ran away!" else msg ++ " failed to escape!" in
  notify_show msg _done None w.

(** The handler of [combat:defeat]. *)
Definition on_combat_defeat (data : CombatDefeatSummary) (w : World) : World :=
  let '(done, w) := notifyWait w in
  notify_show "Your party was defeated..." (InitGameThen done) (Some 0%Z) w.

(** [_bindRenderCombat]: the handler registered for each event. Emitting an
    event runs it. *)
Definition _bindRenderCombat (ev : CombatEvent) : World -> World :=
  match ev with
  | combat_attack data => on_combat_attack data
  | combat_run data => on_combat_run data
  | combat_defeat data => on_combat_defeat data
  end.

(** ** The environment of the presentation layer *)

(** Modelled from the spec: what the external actors do. The player
    acknowledges the notification on display, which runs its [done]
    callback; a pending [initGame] promise resolves, which runs its [then]
    callback. *)
Inductive Stimulus :=
| Acknowledge
| InitGameResolves.

Definition react (st : Stimulus) (w : World) : World :=
  match st with
  | Acknowledge =>
      match shown w with
      | [] => w
      | n :: rest =>
          call (done_callback n)
            (record (Acknowledged (message n))
               (mkWorld (combat w) (now w) (gate w) rest (shakes w)
                  (reinitialising w) (history w)))
      end
  | InitGameResolves =>
      match reinitialising w with
      | [] => w
      | k :: rest =>
          call k
            (record InitGameResolved
               (mkWorld (combat w) (now w) (gate w) (shown w) (shakes w) rest
                  (history w)))
      end
  end.

Fixpoint run_stimuli (l : list Stimulus) (w : World) : World :=
  match l with
  | [] => w
  | st :: l' => run_stimuli l' (react st w)
  end.

(** No token is outstanding and no callback is held by a collaborator. *)
Definition quiescent (w : World) : Prop :=
  outstanding (gate w) = [] ∧ shown w = [] ∧ reinitialising w = [].

(** What happened since world [w0]. *)
Definition new_history (w0 w : World) : list Happening :=
  drop (length (history w0)) (history w).

Definition is_invoked (t : nat) (h : Happening) : bool :=
  match h with
  | Invoked t' => Nat.eqb t' t
  | _ => false
  end.
Definition is_waited (h : Happening) : bool :=
  match h with
  | Waited _ => true
  | _ => false
  end.

(** How often token [t] was invoked, and how many tokens were obtained. *)
Definition invocations (t : nat) (h : list Happening) : nat :=
  length (List.filter (is_invoked t) h).
Definition tokens_obtained (h : list Happening) : nat :=
  length (List.filter is_waited h).

(** Every invocation of token [t] in [h] comes after a resolution of
    [initGame]; [resolved] tells whether one came before [h]. *)
Fixpoint invoked_only_after_resolved (t : nat) (resolved : bool) (h : list Happening) : bool :=
  match h with
  | [] => true
  | InitGameResolved :: h' => invoked_only_after_resolved t true h'
  | Invoked t' :: h' =>
      (if Nat.eqb t' t then resolved else true) && invoked_only_after_resolved t resolved h'
  | _ :: h' => invoked_only_after_resolved t resolved h'
  end.

Fixpoint after_first (st : Stimulus) (l : list Stimulus) : option (list Stimulus) :=
  match l with
  | [] => None
  | st' :: l' =>
      match st, st' with
      | Acknowledge, Acknowledge | InitGameResolves, InitGameResolves => Some l'
      | _, _ => after_first st l'
      end
  end.

(** ** Vocabulary of the properties of the presentation layer *)

(** The callback that a handler hands to [notify.show] for token [t]. *)
Definition handed_over (ev : CombatEvent) (t : nat) : Callback :=
  match ev with
  | combat_defeat _ => InitGameThen (CompletionToken t)
  | _ => CompletionToken t
  end.

(** How far the acknowledgement of one event has come: what has happened
    since the handler returned, and whether the token has been released. *)
Inductive Progress (t : nat) (msg : string) : Callback -> list Happening -> list nat -> Prop :=
| on_display cb :
    Progress t msg cb [] [t]
| acknowledged_plain :
    Progress t msg (CompletionToken t) [Acknowledged msg; Invoked t] []
| acknowledged_reinitialising :
    Progress t msg (InitGameThen (CompletionToken t))
      [Acknowledged msg; InitGameCalled] [t]
| acknowledged_reinitialised :
    Progress t msg (InitGameThen (CompletionToken t))
      [Acknowledged msg; InitGameCalled; InitGameResolved; Invoked t] [].

Definition defeat_message : string := "Your party was defeated...".

(** * Part II, continued: the remaining methods *)

(** ** The pointer element of the choose-action state *)

(** [addPointerClass(clazz)] and [removePointerClass(clazz)]. *)
Definition addPointerClass (clazz : string) : M unit :=
  modify (with_this (fun c =>
    set_pointerElementRef (addClass clazz (pointerElementRef c)) c)).
Definition removePointerClass (clazz : string) : M unit :=
  modify (with_this (fun c =>
    set_pointerElementRef (removeClass clazz (pointerElementRef c)) c)).

(** [hidePointer()] and [showPointer()]. *)
Definition hidePointer : M unit :=
  modify (with_this (fun c =>
    set_pointerElementRef (addClass "hidden" (pointerElementRef c)) c)).
Definition showPointer : M unit :=
  modify (with_this (fun c =>
    set_pointerElementRef (removeClass "hidden" (pointerElementRef c)) c)).

(** The callback that [ngAfterViewInit] subscribes to [interval(50)]: the
    point pushed to [_pointerPosition$], or nothing when the callback returns
    early because [pointAt] or the injected [combat] is null. *)
Definition ngAfterViewInit_interval (combat : option CombatComponent)
  (c : CombatChooseActionStateComponent) : option Point :=
  match pointAt c, combat with
  | Some e, Some cv =>
      let targetPos :=
        mkPoint (point_x (point e) - point_x (camera_point cv) + point_x (pointOffset c))%Q
                (point_y (point e) - point_y (camera_point cv) + point_y (pointOffset c))%Q in
      Some (worldToScreen cv targetPos (cameraScale cv))
  | _, _ => None
  end.

(** ** The pointer and the teardown of [CombatComponent] *)

(** Modelled from the spec: [UIAttachment] is declared in [./types], which
    is not part of the sources; the fields are the ones [tick] uses: the
    object pointed at, the offset, and the [left] and [top] of the element's
    style, in pixels, once they have been written. *)
Record UIAttachment := mkAttachment {
  object : option GameEntityObject;
  offset : Point;
  element_style : option Point;
}.

(** The calls that [ngOnDestroy] makes on the world and the scene. *)
Inductive TeardownCall :=
| world_erase
| world_time_removeObject
| scene_removeView.

(** [CombatComponent] with its [pointer] field and the teardown calls made
    so far. *)
Record CombatView := mkView {
  view_component : CombatComponent;
  pointer : option UIAttachment;
  teardown : list TeardownCall;
}.

(** [tick(elapsed)]. *)
Definition tick (elapsed : Q) (v : CombatView) : CombatView :=
  match pointer v with
  | None => v
  | Some p =>
      match object p with
      | None => v
      | Some o =>
          let cv := view_component v in
          let targetPos :=
            mkPoint (point_x (point o) - point_x (camera_point cv) + point_x (offset p))%Q
                    (point_y (point o) - point_y (camera_point cv) + point_y (offset p))%Q in
          let screenPos := worldToScreen cv targetPos (cameraScale cv) in
          mkView cv (Some (mkAttachment (object p) (offset p) (Some screenPos)))
            (teardown v)
      end
  end.

(** [ngOnDestroy()]. *)
Definition ngOnDestroy (v : CombatView) : CombatView :=
  let cv := view_component v in
  mkView
    (mkCombat (camera_point cv) (cameraScale cv) (worldToScreen cv)
       (canvas_offsetLeft cv) (canvas_offsetTop cv) [])
    None
    (teardown v ++ [world_erase; world_time_removeObject; scene_removeView])%list.

(** ** Vocabulary of the further properties *)



(** Whether the event is [combat:attack]. *)
Definition is_attack (ev : CombatEvent) : bool :=
  match ev with
  | combat_attack _ => true
  | _ => false
  end.


(** Several ticks in a row. *)
Fixpoint ticks (elapsed : list Q) (v : CombatView) : CombatView :=
  match elapsed with
  | [] => v
  | e :: rest => ticks rest (tick e v)
  end.

(** The store of the previous round does not matter for [enter]: a store
    that differs from [s] in the Turn Order, the current combatant and its
    flag, the Player Choice Map, the Pending Set, the machine reference, the
    sub-machine and the list of combatants still to choose. *)
Definition with_previous_round (tl : list GameEntityObject)
  (cur : option GameEntityObject) (cd : bool)
  (pc : gmap string CombatActionBehavior) (pend : list GameEntityObject)
  (mach : bool) (sm : option ChooseActionStateMachine)
  (ch : list GameEntityObject) (s : Store) : Store :=
  let m := the_machine s in
  let c := this s in
  mkStore
    (mkMachine (scene m) (party m) (enemies m) tl cur cd pc (currentState m))
    (mkChooseState pend mach (pointerOffset c) (pointAt c) (pointOffset c)
       (pointerElementRef c) sm)
    ch (console s).

(** The environment acknowledges, and later [initGame] resolves. *)
Definition acknowledged_then_resolved (l : list Stimulus) : Prop :=
  ∃ l1 l2, l = (l1 ++ Acknowledge :: l2)%list ∧ InitGameResolves ∈ l2.

(** * Part III: fixtures and tactics *)

(** ** The roster of the end-to-end scenarios *)

Definition origin : Point := mkPoint 0 0.
Definition Warrior : GameEntityObject :=
  mkEntity "1" "Warrior" 20 origin CombatPlayerComponent.
Definition Mage : GameEntityObject :=
  mkEntity "2" "Mage" 12 origin CombatPlayerComponent.
Definition Goblin : GameEntityObject :=
  mkEntity "3" "Goblin" 5 origin CombatEnemyComponent.
Definition Ghost : GameEntityObject :=
  mkEntity "4" "Ghost" 0 origin CombatEnemyComponent.

Definition attack (a b : GameEntityObject) : CombatActionBehavior :=
  mkAction a (Some b) "attack".
Definition guard (a : GameEntityObject) : CombatActionBehavior :=
  mkAction a None "guard".

(** A machine about to enter [choose-action], and a fresh state component. *)
Definition machine0 : CombatStateMachineComponent :=
  mkMachine (Some (mkScene "combat")) [Warrior; Mage] [Goblin; Ghost]
    [] None false ∅ choose_action.
Definition this0 : CombatChooseActionStateComponent :=
  mkChooseState [] false origin None origin [] None.
Definition store0 : Store := mkStore machine0 this0 [] [].

(** A shuffle that reverses its input, and one that keeps it. *)
Definition shuffle_rev (l : list GameEntityObject) : list GameEntityObject := rev l.
Definition shuffle_id (l : list GameEntityObject) : list GameEntityObject := l.

(** Scenario B: the round is entered and Warrior has submitted an attack. *)
Definition storeB : Store :=
  exec (enter shuffle_rev ;;; chooseSubmit (attack Warrior Goblin)) store0.

(** A store in which the pointer was last placed to the right of a
    choosing party member, with an offset of its own. *)
Definition storeP : Store :=
  with_this (fun c => set_pointerElementRef ["right"] (set_pointOffset (mkPoint 3 4) c))
    storeB.

Definition goblin_item : ICombatMenuItem := mkMenuItem "Goblin" (SourceEntity Goblin).

(** ** A view at the origin and a quiescent world *)

Definition pointer0 : UIAttachment := mkAttachment (Some Goblin) (mkPoint 1 2) None.

Definition view0 : CombatComponent :=
  mkCombat origin 1
    (fun p scale => mkPoint (point_x p * scale)%Q (point_y p * scale)%Q)
    0 0 [].
Definition world0 : World := mkWorld view0 1000 (mkGate 0 []) [] [] [] [].

Definition goblin_hits_warrior : CombatAttackSummary := mkAttackSummary 3 Goblin Warrior.
Definition mage_heals_warrior : CombatAttackSummary := mkAttackSummary (-4) Mage Warrior.
Definition warrior_misses_goblin : CombatAttackSummary := mkAttackSummary 0 Warrior Goblin.
Definition warrior_hits_goblin : CombatAttackSummary := mkAttackSummary 5 Warrior Goblin.

(** ** Tactics *)

Ltac run :=
  cbv [choose next chooseSubmit exit setPointerTarget pointAtItem
       setCurrentState console_log exec completion bind modify get ret throw
       with_machine with_this set_choices];
  cbn [fst snd the_machine this choices console].

Ltac setters :=
  cbv [set_turnList set_current set_currentDone set_playerChoices
       set_currentState set_pending set_machine set_pointAt set_pointOffset
       set_pointerElementRef set__currentMachine set_sub_current set_target
       set_sub_currentState];
  cbn [scene party enemies turnList current currentDone playerChoices
       currentState pending machine pointerOffset pointAt pointOffset
       pointerElementRef _currentMachine sub_scene data sub_current target
       sub_currentState].

(** * Part IV: properties of the choose-action state *)

(** ** The submission callback *)

Lemma choose_completion action s : completion (choose action) s = Normal tt.
Proof. run. by destruct (_ =? _)%nat. Qed.

Lemma choose_pending action s :
  pending (this (exec (choose action) s)) = remaining action (pending (this s)).
Proof. run. by destruct (_ =? _)%nat. Qed.

Lemma choose_playerChoices action s :
  playerChoices (the_machine (exec (choose action) s))
  = <[ _uid (from action) := action ]> (playerChoices (the_machine s)).
Proof. run. by destruct (_ =? _)%nat. Qed.

Lemma choose_turnList action s :
  turnList (the_machine (exec (choose action) s)) = turnList (the_machine s).
Proof. run. by destruct (_ =? _)%nat. Qed.

Lemma choose_currentState action s :
  currentState (the_machine (exec (choose action) s))
  = match remaining action (pending (this s)) with
    | [] => begin_turn
    | _ => currentState (the_machine s)
    end.
Proof.
  run. fold (remaining action (pending (this s))).
  by destruct (remaining action (pending (this s))).
Qed.

Lemma choose_choices action s : choices (exec (choose action) s) = choices s.
Proof. run. by destruct (_ =? _)%nat. Qed.

Lemma choose__currentMachine action s :
  _currentMachine (this (exec (choose action) s)) = _currentMachine (this s).
Proof. run. by destruct (_ =? _)%nat. Qed.

Lemma remaining_not_pending action l :
  Forall (fun p => _uid p ≠ _uid (from action)) l -> remaining action l = l.
Proof.
  induction 1 as [|p l Hp _ IH]; [done|].
  cbn. destruct (String.eqb_spec (_uid (from action)) (_uid p)) as [E|_].
  - by destruct Hp.
  - cbn. by rewrite <- IH at 2.
Qed.

Lemma remaining_last action p :
  _uid p = _uid (from action) -> remaining action [p] = [].
Proof. intros E. cbn. rewrite E, String.eqb_refl. done. Qed.

(** ** The store left by [enter] *)

Lemma enter_entered shuffle sc s :
  scene (the_machine s) = Some sc ->
  enter shuffle s = (Normal tt, entered shuffle sc s).
Proof.
  intros Hsc. unfold enter, entered, alive_at_start, getLiveParty, getLiveEnemies.
  cbv [bind get]. rewrite Hsc.
  cbv [next turnList_shift bind modify get ret with_machine with_this set_choices].
  cbn. destruct (List.filter _ (party (the_machine s))); setters; by rewrite ?Hsc.
Qed.

Lemma enter_no_scene shuffle s :
  scene (the_machine s) = None ->
  enter shuffle s = (Throw (Error "Invalid Combat Scene"), s).
Proof. intros Hsc. unfold enter. cbv [bind get]. by rewrite Hsc. Qed.

Lemma head_tail_option_list {A} (l : list A) :
  (option_list (head l) ++ tail l)%list = l.
Proof. by destruct l. Qed.

Lemma getLive_alive e l :
  e ∈ List.filter (fun e => negb (isDefeated e)) l -> isDefeated e = false.
Proof.
  rewrite list_elem_of_In, filter_In. intros [_ H]. by apply negb_true_iff.
Qed.

(** ** C1: submissions for a combatant that is not pending *)

(** C1, as stated, fails. Scenario B: Warrior has submitted an attack and
    only Mage is pending. A second submission for Warrior is not rejected
    with [InvalidChoiceError]: the call returns normally, and the Player
    Choice Map entry of Warrior is replaced, so the round's state changes. *)
Lemma choose_double_submit_accepted :
  ¬ is_pending (from (guard Warrior)) storeB ∧
  completion (choose (guard Warrior)) storeB = Normal tt ∧
  completion (choose (guard Warrior)) storeB ≠ Throw InvalidChoiceError ∧
  playerChoices (the_machine storeB) !! "1" = Some (attack Warrior Goblin) ∧
  playerChoices (the_machine (exec (choose (guard Warrior)) storeB)) !! "1"
    = Some (guard Warrior) ∧
  round_state (exec (choose (guard Warrior)) storeB) ≠ round_state storeB.
Proof.
  assert (Hold : playerChoices (the_machine storeB) !! "1"
                 = Some (attack Warrior Goblin)) by (vm_compute; reflexivity).
  assert (Hnew : playerChoices (the_machine (exec (choose (guard Warrior)) storeB)) !! "1"
                 = Some (guard Warrior)) by (vm_compute; reflexivity).
  split_and!.
  - unfold is_pending. vm_compute pending. intros H.
    apply Exists_cons in H as [H|H]; [discriminate H | by apply Exists_nil in H].
  - apply choose_completion.
  - rewrite choose_completion. discriminate.
  - exact Hold.
  - exact Hnew.
  - intros H. unfold round_state in H.
    assert (E : playerChoices (the_machine (exec (choose (guard Warrior)) storeB))
                = playerChoices (the_machine storeB)) by congruence.
    rewrite E, Hold in Hnew. discriminate Hnew.
Qed.

(** C1, amended: a submission whose actor is not in the Pending Set is never
    rejected. The call returns normally, the Pending Set and the Turn Order
    are unchanged, and the action is recorded in the Player Choice Map under
    the actor's id, replacing an earlier entry. *)
Theorem choose_not_pending_records action s :
  ¬ is_pending (from action) s ->
  completion (choose action) s = Normal tt ∧
  pending (this (exec (choose action) s)) = pending (this s) ∧
  turnList (the_machine (exec (choose action) s)) = turnList (the_machine s) ∧
  playerChoices (the_machine (exec (choose action) s))
    = <[ _uid (from action) := action ]> (playerChoices (the_machine s)).
Proof.
  intros Hnot. split_and!.
  - apply choose_completion.
  - rewrite choose_pending. apply remaining_not_pending.
    unfold is_pending in Hnot. by apply Forall_Exists_neg in Hnot.
  - apply choose_turnList.
  - apply choose_playerChoices.
Qed.

Lemma choose_not_pending_records_witness :
  completion (choose (guard Warrior)) storeB = Normal tt ∧
  pending (this (exec (choose (guard Warrior)) storeB)) = pending (this storeB) ∧
  turnList (the_machine (exec (choose (guard Warrior)) storeB))
    = turnList (the_machine storeB) ∧
  playerChoices (the_machine (exec (choose (guard Warrior)) storeB))
    = <[ "1" := guard Warrior ]> (playerChoices (the_machine storeB)).
Proof.
  apply (choose_not_pending_records (guard Warrior) storeB).
  unfold is_pending. vm_compute pending. intros H.
  apply Exists_cons in H as [H|H]; [discriminate H | by apply Exists_nil in H].
Defined.

(** ** C2: the Turn Order built on entry *)

Lemma alive_at_start_alive s :
  Forall (fun e => isDefeated e = false) (alive_at_start s).
Proof.
  apply Forall_forall. intros e He. unfold alive_at_start in He.
  apply elem_of_app in He as [He|He]; by apply getLive_alive in He.
Qed.

Lemma alive_at_start_complete s e :
  e ∈ (party (the_machine s) ++ enemies (the_machine s))%list ->
  isDefeated e = false -> e ∈ alive_at_start s.
Proof.
  intros He Hlive. unfold alive_at_start, getLiveParty, getLiveEnemies.
  apply elem_of_app in He. apply elem_of_app.
  destruct He as [He|He]; [left|right];
    apply list_elem_of_In, filter_In; (split; [by apply list_elem_of_In|]);
    by rewrite Hlive.
Qed.

Lemma alive_at_start_NoDup s :
  NoDup (party (the_machine s) ++ enemies (the_machine s))%list ->
  NoDup (alive_at_start s).
Proof.
  unfold alive_at_start, getLiveParty, getLiveEnemies.
  rewrite <- List.filter_app, !NoDup_ListNoDup. apply List.NoDup_filter.
Qed.

(** C2: when the shuffle returns a permutation of its input, entering the
    state succeeds and leaves the current acting combatant followed by the
    remaining Turn Order equal to the shuffle of the combatants alive at
    round start, hence a permutation of exactly them: every member is alive,
    every living party member and enemy is present, and nothing is repeated
    when the roster has no repetition. The dead are removed from the input
    of the shuffle. *)
Theorem enter_turn_order_permutation
    (shuffle : list GameEntityObject -> list GameEntityObject) sc s :
  (∀ l, shuffle l ≡ₚ l) ->
  scene (the_machine s) = Some sc ->
  completion (enter shuffle) s = Normal tt ∧
  acting_order (exec (enter shuffle) s) = shuffle (alive_at_start s) ∧
  acting_order (exec (enter shuffle) s) ≡ₚ alive_at_start s ∧
  Forall (fun e => isDefeated e = false) (acting_order (exec (enter shuffle) s)) ∧
  (∀ e, e ∈ (party (the_machine s) ++ enemies (the_machine s))%list ->
        isDefeated e = false -> e ∈ acting_order (exec (enter shuffle) s)) ∧
  (NoDup (party (the_machine s) ++ enemies (the_machine s))%list ->
   NoDup (acting_order (exec (enter shuffle) s))).
Proof.
  intros Hperm Hsc.
  assert (Hord : acting_order (exec (enter shuffle) s) = shuffle (alive_at_start s)).
  { unfold exec, acting_order. rewrite (enter_entered shuffle sc s Hsc).
    cbn. apply head_tail_option_list. }
  split_and!.
  - unfold completion. by rewrite (enter_entered shuffle sc s Hsc).
  - exact Hord.
  - rewrite Hord. apply Hperm.
  - rewrite Hord, (Hperm _). apply alive_at_start_alive.
  - intros e He Hlive. rewrite Hord, (Hperm _).
    by apply alive_at_start_complete.
  - intros Hnd. rewrite Hord, (Hperm _). by apply alive_at_start_NoDup.
Qed.

Lemma shuffle_rev_permutation l : shuffle_rev l ≡ₚ l.
Proof. unfold shuffle_rev. symmetry. apply Permutation_rev. Qed.

Lemma enter_turn_order_permutation_witness :
  completion (enter shuffle_rev) store0 = Normal tt ∧
  acting_order (exec (enter shuffle_rev) store0) = [Goblin; Mage; Warrior] ∧
  acting_order (exec (enter shuffle_rev) store0) ≡ₚ [Warrior; Mage; Goblin] ∧
  NoDup (acting_order (exec (enter shuffle_rev) store0)).
Proof.
  destruct (enter_turn_order_permutation shuffle_rev (mkScene "combat") store0
              shuffle_rev_permutation eq_refl)
    as (Hc & Hord & Hperm & _ & _ & Hnd).
  split_and!; [exact Hc | exact Hord | exact Hperm |].
  apply Hnd. vm_compute.
  repeat (constructor; [rewrite ?list_elem_of_In; cbn; intuition discriminate|]).
  constructor.
Defined.

(** ** C3: the transition to [begin-turn] *)

(** C3: while the machine is in [choose-action], a submission returns with
    the machine in [begin-turn] if and only if it leaves the Pending Set
    empty; the submission of the last pending combatant makes the transition
    within the same call. *)
Theorem choose_transition_iff_pending_empty action s :
  currentState (the_machine s) = choose_action ->
  completion (choose action) s = Normal tt ∧
  (currentState (the_machine (exec (choose action) s)) = begin_turn
   ↔ pending (this (exec (choose action) s)) = []) ∧
  (∀ p, pending (this s) = [p] -> _uid p = _uid (from action) ->
        pending (this (exec (choose action) s)) = [] ∧
        currentState (the_machine (exec (choose action) s)) = begin_turn).
Proof.
  intros Hst. split_and!.
  - apply choose_completion.
  - rewrite choose_currentState, choose_pending, Hst.
    destruct (remaining action (pending (this s))); split; congruence.
  - intros p Hp Hid.
    rewrite choose_currentState, choose_pending, Hp, (remaining_last _ _ Hid).
    done.
Qed.

Lemma choose_transition_iff_pending_empty_witness :
  completion (choose (attack Mage Goblin)) storeB = Normal tt ∧
  (currentState (the_machine (exec (choose (attack Mage Goblin)) storeB)) = begin_turn
   ↔ pending (this (exec (choose (attack Mage Goblin)) storeB)) = []) ∧
  (∀ p, pending (this storeB) = [p] -> _uid p = _uid (from (attack Mage Goblin)) ->
        pending (this (exec (choose (attack Mage Goblin)) storeB)) = [] ∧
        currentState (the_machine (exec (choose (attack Mage Goblin)) storeB)) = begin_turn).
Proof.
  apply (choose_transition_iff_pending_empty (attack Mage Goblin) storeB).
  vm_compute. reflexivity.
Defined.

(** ** C4: the flag of the current acting combatant *)

(** C4, as stated, fails: after [enter] the current acting combatant is the
    first entry of the shuffled list, and [currentDone] is [true], so the
    combatant is not flagged as still to be processed. *)
Lemma enter_currentDone_not_false :
  current (the_machine (exec (enter shuffle_rev) store0)) = Some Goblin ∧
  currentDone (the_machine (exec (enter shuffle_rev) store0)) = true ∧
  currentDone (the_machine (exec (enter shuffle_rev) store0)) ≠ false.
Proof. split_and!; [reflexivity | reflexivity | discriminate]. Qed.

(** C4, amended: on every successful entry the first entry of the shuffled
    list is removed from the Turn Order and made the current acting
    combatant, and the machine's [currentDone] flag is set to [true]. *)
Theorem enter_pops_current_sets_currentDone
    (shuffle : list GameEntityObject -> list GameEntityObject) sc s :
  scene (the_machine s) = Some sc ->
  completion (enter shuffle) s = Normal tt ∧
  current (the_machine (exec (enter shuffle) s)) = head (shuffle (alive_at_start s)) ∧
  turnList (the_machine (exec (enter shuffle) s)) = tail (shuffle (alive_at_start s)) ∧
  currentDone (the_machine (exec (enter shuffle) s)) = true.
Proof.
  intros Hsc. unfold completion, exec.
  rewrite (enter_entered shuffle sc s Hsc). done.
Qed.

Lemma enter_pops_current_sets_currentDone_witness :
  completion (enter shuffle_id) store0 = Normal tt ∧
  current (the_machine (exec (enter shuffle_id) store0))
    = head (shuffle_id (alive_at_start store0)) ∧
  turnList (the_machine (exec (enter shuffle_id) store0))
    = tail (shuffle_id (alive_at_start store0)) ∧
  currentDone (the_machine (exec (enter shuffle_id) store0)) = true.
Proof.
  apply (enter_pops_current_sets_currentDone shuffle_id (mkScene "combat") store0).
  reflexivity.
Defined.

(** ** C5: the choose-action sub-machine *)

Lemma next_pops s p rest sm :
  choices s = p :: rest -> _currentMachine (this s) = Some sm ->
  next s = (Normal tt,
            with_this (set__currentMachine (Some (choosing p sm))) (set_choices rest s)).
Proof. intros Hc Hm. run. rewrite Hc. cbn. by rewrite Hm. Qed.

Lemma next_none s : choices s = [] -> next s = (Normal tt, inert s).
Proof. intros Hc. run. by rewrite Hc. Qed.

Lemma chooseSubmit_relays action s sm :
  _currentMachine (this s) = Some sm ->
  chooseSubmit action s = next (exec (choose action) s).
Proof.
  intros Hm. unfold chooseSubmit at 1. cbv [bind get]. rewrite Hm.
  unfold exec. pose proof (choose_completion action s) as Hc.
  unfold completion in Hc. destruct (choose action s) as [c s']. cbn in *.
  by rewrite Hc.
Qed.

Lemma chooseSubmit_inert action s :
  _currentMachine (this s) = None -> chooseSubmit action s = (Throw TypeError, s).
Proof. intros Hm. unfold chooseSubmit. cbv [bind get]. by rewrite Hm. Qed.


(** The whole choose-action phase of scenario B: the round is entered,
    Warrior and then Mage submit; the sub-machine is dropped, both choices
    are recorded and the machine is in [begin-turn]. *)
Example scenario_round_completes :
  let s := exec (enter shuffle_rev ;;; chooseSubmit (attack Warrior Goblin) ;;;
                 chooseSubmit (attack Mage Goblin)) store0 in
  pending (this s) = [] ∧ _currentMachine (this s) = None ∧
  currentState (the_machine s) = begin_turn ∧
  playerChoices (the_machine s) !! "1" = Some (attack Warrior Goblin) ∧
  playerChoices (the_machine s) !! "2" = Some (attack Mage Goblin).
Proof. vm_compute. done. Qed.

(** ** C8: pointing at a menu item *)

(** C8, as stated, fails: pointing at the Goblin item also resets the
    pointer offset and turns the pointer element from [right] to [left],
    besides updating [pointAt] and the sub-machine's target. *)
Lemma pointAtItem_moves_pointer :
  pointOffset (this storeP) = mkPoint 3 4 ∧
  pointOffset (this (exec (pointAtItem goblin_item) storeP)) = mkPoint 0 0 ∧
  pointOffset (this (exec (pointAtItem goblin_item) storeP)) ≠ pointOffset (this storeP) ∧
  pointerElementRef (this storeP) = ["right"] ∧
  pointerElementRef (this (exec (pointAtItem goblin_item) storeP)) = ["left"] ∧
  pointerElementRef (this (exec (pointAtItem goblin_item) storeP))
    ≠ pointerElementRef (this storeP).
Proof. split_and!; try reflexivity; vm_compute; discriminate. Qed.

(** C8, amended: with an active sub-machine, pointing at an item whose
    source is a combatant entity updates only the pointer state ([pointAt],
    the pointer offset, the direction class of the pointer element) and the
    sub-machine's target; no action is submitted, and the machine (Player
    Choice Map, Turn Order), the Pending Set, the list of combatants still
    to choose and the console are unchanged. For any other source the store
    is unchanged. *)
Theorem pointAtItem_frame item s sm :
  _currentMachine (this s) = Some sm ->
  match source item with
  | SourceEntity e =>
      pointAtItem item s
      = (Normal tt,
         mkStore (the_machine s)
           (set__currentMachine (Some (set_target (Some e) sm)) (pointed_left e (this s)))
           (choices s) (console s))
      ∧ pending (this (exec (pointAtItem item) s)) = pending (this s)
      ∧ playerChoices (the_machine (exec (pointAtItem item) s))
        = playerChoices (the_machine s)
      ∧ pointAt (this (exec (pointAtItem item) s)) = Some e
      ∧ (target <$> _currentMachine (this (exec (pointAtItem item) s))) = Some (Some e)
  | _ => pointAtItem item s = (Normal tt, s)
  end.
Proof.
  intros Hm. unfold exec, pointAtItem.
  destruct (source item) as [e| |]; [|reflexivity..].
  run. setters. rewrite Hm. cbn. done.
Qed.

Lemma pointAtItem_frame_witness :
  pending (this (exec (pointAtItem goblin_item) storeP)) = pending (this storeP)
  ∧ playerChoices (the_machine (exec (pointAtItem goblin_item) storeP))
    = playerChoices (the_machine storeP)
  ∧ pointAt (this (exec (pointAtItem goblin_item) storeP)) = Some Goblin.
Proof.
  assert (Hm : ∃ sm, _currentMachine (this storeP) = Some sm) by (eexists; reflexivity).
  destruct Hm as [sm Hm].
  destruct (pointAtItem_frame goblin_item storeP sm Hm) as (_ & Hp & Hc & Ht & _).
  split_and!; [exact Hp | exact Hc | exact Ht].
Defined.

(** Without a sub-machine the pointer state is updated and the assignment
    of the target raises. *)
Lemma pointAtItem_no_sub_machine e lbl s :
  _currentMachine (this s) = None ->
  pointAtItem (mkMenuItem lbl (SourceEntity e)) s
  = (Throw TypeError,
     mkStore (the_machine s) (pointed_left e (this s)) (choices s) (console s)).
Proof.
  intros Hm. unfold pointAtItem, pointed_left. cbn [source]. run. setters.
  by rewrite Hm.
Qed.

(** ** The choose-action phase as a whole *)

Lemma entered_presenting shuffle sc s :
  scene (the_machine s) = Some sc -> presenting (exec (enter shuffle) s).
Proof.
  intros Hsc. unfold exec. rewrite (enter_entered shuffle sc s Hsc).
  unfold presenting, entered. cbn.
  destruct (getLiveParty (the_machine s)) as [|p l]; [done|]. by exists p.
Qed.

Lemma remaining_head action p l :
  _uid (from action) = _uid p -> distinct_uids (p :: l) -> remaining action (p :: l) = l.
Proof.
  intros Hid Hnd. unfold distinct_uids in Hnd. rewrite fmap_cons in Hnd.
  apply NoDup_cons in Hnd as [Hnotin _].
  assert (E : remaining action (p :: l) = remaining action l).
  { unfold remaining. cbn [List.filter]. by rewrite Hid, String.eqb_refl. }
  rewrite E. apply remaining_not_pending, Forall_forall. intros q Hq Heq.
  apply Hnotin. rewrite <- Hid, <- Heq. by apply list_elem_of_fmap_2.
Qed.

Lemma chooseSubmit_in_order s sm p action :
  _currentMachine (this s) = Some sm ->
  pending (this s) = p :: choices s ->
  _uid (from action) = _uid p ->
  distinct_uids (pending (this s)) ->
  completion (chooseSubmit action) s = Normal tt ∧
  pending (this (exec (chooseSubmit action) s)) = choices s ∧
  presenting (exec (chooseSubmit action) s) ∧
  playerChoices (the_machine (exec (chooseSubmit action) s))
    = <[ _uid (from action) := action ]> (playerChoices (the_machine s)) ∧
  currentState (the_machine (exec (chooseSubmit action) s))
    = match choices s with
      | [] => begin_turn
      | _ => currentState (the_machine s)
      end.
Proof.
  intros Hm Hp Hid Hnd.
  pose proof (chooseSubmit_relays action s sm Hm) as Hrel.
  pose proof (choose_choices action s) as Hch.
  pose proof (choose__currentMachine action s) as Hcm. rewrite Hm in Hcm.
  pose proof (choose_playerChoices action s) as Hpc.
  pose proof (choose_pending action s) as Hpe.
  pose proof (choose_currentState action s) as Hcs.
  rewrite Hp in Hnd.
  rewrite Hp, (remaining_head action p (choices s) Hid Hnd) in Hpe, Hcs.
  unfold completion, exec at 1 2 3 4. rewrite Hrel. unfold presenting.
  destruct (choices s) as [|q rest].
  - rewrite (next_none _ Hch). cbn. by rewrite Hpe, Hpc, Hcs.
  - rewrite (next_pops _ q rest sm Hch Hcm). cbn. rewrite Hpe, Hpc, Hcs.
    split_and!; try done. by exists q.
Qed.

(** X7: A round of choices: once the state is entered with at least one party
    member pending and the party submits in the order of presentation, every
    submission but the last leaves the machine in [choose-action], and the
    last one leaves it in [begin-turn] with nobody pending and every action
    recorded. *)
Theorem choose_action_phase_completes actions : ∀ s,
  presenting s ->
  distinct_uids (pending (this s)) ->
  currentState (the_machine s) = choose_action ->
  Forall2 (fun p action => _uid (from action) = _uid p) (pending (this s)) actions ->
  pending (this s) ≠ [] ->
  completion (submit_all actions) s = Normal tt ∧
  pending (this (exec (submit_all actions) s)) = [] ∧
  currentState (the_machine (exec (submit_all actions) s)) = begin_turn ∧
  playerChoices (the_machine (exec (submit_all actions) s))
    = record_choices actions (playerChoices (the_machine s)) ∧
  ∀ k, (k < length actions)%nat ->
       currentState (the_machine (exec (submit_all (take k actions)) s)) = choose_action.
Proof.
  induction actions as [|action rest IH]; intros s Hpres Hnd Hst Hall Hne.
  { apply Forall2_nil_inv_r in Hall. done. }
  unfold presenting in Hpres.
  destruct (_currentMachine (this s)) as [sm|] eqn:Hm; [|by destruct Hpres].
  destruct Hpres as (p & _ & Hp).
  rewrite Hp in Hall. apply Forall2_cons_1 in Hall as [Hid Hall].
  destruct (chooseSubmit_in_order s sm p action Hm Hp Hid Hnd)
    as (Hc & Hpe & Hpres' & Hpc & Hcs).
  assert (Hrun : ∀ l, submit_all (action :: l) s
                      = submit_all l (exec (chooseSubmit action) s)).
  { intros l. cbn [submit_all]. unfold bind, exec. unfold completion in Hc.
    destruct (chooseSubmit action s) as [c s']. cbn in Hc. by rewrite Hc. }
  assert (Hnd' : distinct_uids (choices s)).
  { unfold distinct_uids in *. rewrite Hp, fmap_cons in Hnd.
    by apply NoDup_cons in Hnd as [_ Hnd]. }
  unfold completion, exec at 1 2 3. rewrite Hrun.
  destruct (choices s) as [|q l] eqn:Hch.
  - apply Forall2_nil_inv_l in Hall. subst rest. cbn [submit_all ret fst snd].
    split_and!; [done | by rewrite Hpe | by rewrite Hcs | by rewrite Hpc |].
    intros k Hk. cbn in Hk. assert (k = 0)%nat as -> by lia. exact Hst.
  - rewrite <- Hpe in Hnd', Hall.
    assert (Hne' : pending (this (exec (chooseSubmit action) s)) ≠ [])
      by (by rewrite Hpe).
    rewrite Hst in Hcs.
    destruct (IH _ Hpres' Hnd' Hcs Hall Hne') as (Hc' & Hp' & Hs' & Hpc' & Hk').
    split_and!; [exact Hc' | exact Hp' | exact Hs' | |].
    { etrans; [exact Hpc'|]. by rewrite Hpc. }
    intros [|k] Hk; [exact Hst|].
    cbn [take]. unfold exec at 1. rewrite Hrun. apply Hk'. cbn in Hk. lia.
Qed.

Lemma choose_action_phase_completes_scenario :
  let s := exec (enter shuffle_id) store0 in
  let actions := [attack Warrior Goblin; guard Mage] in
  completion (submit_all actions) s = Normal tt ∧
  pending (this (exec (submit_all actions) s)) = [] ∧
  currentState (the_machine (exec (submit_all actions) s)) = begin_turn.
Proof.
  intros s actions.
  destruct (choose_action_phase_completes actions s) as (Hc & Hp & Hs & _).
  - apply (entered_presenting shuffle_id (mkScene "combat") store0 eq_refl).
  - unfold distinct_uids. vm_compute.
    repeat (constructor; [rewrite ?list_elem_of_In; cbn; intuition discriminate|]).
    constructor.
  - reflexivity.
  - vm_compute pending. repeat constructor.
  - vm_compute pending. discriminate.
  - by split_and!.
Defined.

(** * Part V: properties of the presentation layer *)

(** ** The environment *)

Lemma react_acknowledge_idle w : shown w = [] -> react Acknowledge w = w.
Proof. intros Hs. cbn. by rewrite Hs. Qed.

Lemma react_resolves_idle w : reinitialising w = [] -> react InitGameResolves w = w.
Proof. intros Hr. cbn. by rewrite Hr. Qed.

Lemma run_stimuli_idle l w :
  shown w = [] -> reinitialising w = [] -> run_stimuli l w = w.
Proof.
  intros Hs Hr. induction l as [|[] l IH]; [reflexivity| |]; cbn [run_stimuli].
  - by rewrite react_acknowledge_idle.
  - by rewrite react_resolves_idle.
Qed.

Lemma run_stimuli_until_acknowledged l w :
  reinitialising w = [] ->
  run_stimuli l w = match after_first Acknowledge l with
                    | None => w
                    | Some l' => run_stimuli l' (react Acknowledge w)
                    end.
Proof.
  intros Hr. induction l as [|[] l IH]; [reflexivity|reflexivity|].
  cbn [run_stimuli after_first]. by rewrite react_resolves_idle.
Qed.

Lemma run_stimuli_until_resolved l w :
  shown w = [] ->
  run_stimuli l w = match after_first InitGameResolves l with
                    | None => w
                    | Some l' => run_stimuli l' (react InitGameResolves w)
                    end.
Proof.
  intros Hs. induction l as [|[] l IH]; [reflexivity| |reflexivity].
  cbn [run_stimuli after_first]. by rewrite react_acknowledge_idle.
Qed.

Lemma new_history_app w0 w k :
  history w = (history w0 ++ k)%list -> new_history w0 w = k.
Proof. intros H. unfold new_history. rewrite H. apply drop_app_length. Qed.

(** ** The handlers and the gate *)

(** Every handler obtains one token and shows one notification that holds
    the callback of that token. *)
Lemma handler_shape ev w :
  quiescent w ->
  ∃ msg dur,
    shown (_bindRenderCombat ev w)
      = [mkNotification msg (handed_over ev (issued (gate w))) dur] ∧
    reinitialising (_bindRenderCombat ev w) = [] ∧
    outstanding (gate (_bindRenderCombat ev w)) = [issued (gate w)] ∧
    issued (gate (_bindRenderCombat ev w)) = S (issued (gate w)) ∧
    history (_bindRenderCombat ev w)
      = (history w ++ [Waited (issued (gate w)); Shown msg])%list.
Proof.
  intros (Ho & Hs & Hr). destruct ev as [data|data|data]; cbn.
  - unfold on_combat_attack, notifyWait, applyDamage, notify_show, record.
    destruct (_ && _); cbn; rewrite Ho, Hs, Hr, <- app_assoc;
      eexists _, _; split_and!; reflexivity.
  - unfold on_combat_run, notifyWait, notify_show, record. cbn.
    rewrite Ho, Hs, Hr, <- app_assoc. eexists _, _; split_and!; reflexivity.
  - unfold on_combat_defeat, notifyWait, notify_show, record. cbn.
    rewrite Ho, Hs, Hr, <- app_assoc. eexists _, _; split_and!; reflexivity.
Qed.

Lemma filter_release t : List.filter (fun t' => negb (Nat.eqb t' t)) [t] = [].
Proof. cbn. by rewrite Nat.eqb_refl. Qed.

(** From a world in which one notification holds the callback of the only
    outstanding token, the environment can only walk through [Progress]. *)
Lemma run_stimuli_progress t msg dur cb w1 stimuli :
  cb = CompletionToken t ∨ cb = InitGameThen (CompletionToken t) ->
  shown w1 = [mkNotification msg cb dur] ->
  reinitialising w1 = [] ->
  outstanding (gate w1) = [t] ->
  ∃ k, history (run_stimuli stimuli w1) = (history w1 ++ k)%list ∧
       Progress t msg cb k (outstanding (gate (run_stimuli stimuli w1))).
Proof.
  intros Hcb Hs Hr Ho.
  rewrite (run_stimuli_until_acknowledged stimuli w1 Hr).
  destruct (after_first Acknowledge stimuli) as [l'|].
  2:{ exists []. rewrite app_nil_r, Ho. split; [done | constructor]. }
  destruct Hcb as [-> | ->].
  - rewrite run_stimuli_idle; cbn; rewrite Hs; cbn; rewrite ?Hr; try done.
    rewrite Ho, filter_release, <- app_assoc.
    eexists; split; [reflexivity | constructor].
  - rewrite run_stimuli_until_resolved by (cbn; rewrite Hs; done).
    destruct (after_first InitGameResolves l') as [l''|].
    + rewrite run_stimuli_idle; cbn; rewrite Hs; cbn; rewrite ?Hr; try done.
      cbn. rewrite Ho, filter_release, <- !app_assoc.
      eexists; split; [reflexivity | constructor].
    + cbn. rewrite Hs. cbn. rewrite Ho, <- app_assoc.
      eexists; split; [reflexivity | constructor].
Qed.

(** ** C6: one completion token per event *)

(** C6: from a quiescent world, the handler of each of the three events
    obtains exactly one completion token, which is then the only outstanding
    one, so the machine may not proceed. Whatever the environment does
    afterwards, the token is invoked at most once, and the machine may
    proceed exactly when it has been invoked once. *)
Theorem event_gated_by_one_token ev w stimuli :
  quiescent w ->
  let t := issued (gate w) in
  let w1 := _bindRenderCombat ev w in
  let w2 := run_stimuli stimuli w1 in
  tokens_obtained (new_history w w1) = 1%nat ∧
  outstanding (gate w1) = [t] ∧
  may_proceed w1 = false ∧
  (invocations t (new_history w w2) ≤ 1)%nat ∧
  (may_proceed w2 = true ↔ invocations t (new_history w w2) = 1%nat).
Proof.
  intros Hq t w1 w2. subst t w1 w2.
  destruct (handler_shape ev w Hq) as (msg & dur & Hs & Hr & Ho & _ & Hh).
  assert (Hcb : handed_over ev (issued (gate w)) = CompletionToken (issued (gate w))
                ∨ handed_over ev (issued (gate w))
                  = InitGameThen (CompletionToken (issued (gate w))))
    by (destruct ev; cbn; auto).
  destruct (run_stimuli_progress _ msg dur _ _ stimuli Hcb Hs Hr Ho) as (k & Hk & Hp).
  rewrite Hh, <- app_assoc in Hk.
  rewrite (new_history_app _ _ _ Hh), (new_history_app _ _ _ Hk).
  unfold may_proceed. rewrite Ho.
  split_and!; [reflexivity | reflexivity | reflexivity | |];
    inversion Hp; subst; unfold invocations; cbn; rewrite ?Nat.eqb_refl; cbn;
    try lia; split; (done || lia).
Qed.

Lemma event_gated_by_one_token_witness :
  let ev := combat_run (mkRunSummary Warrior false) in
  let w1 := _bindRenderCombat ev world0 in
  let w2 := run_stimuli [InitGameResolves; Acknowledge] w1 in
  tokens_obtained (new_history world0 w1) = 1%nat ∧
  outstanding (gate w1) = [0%nat] ∧
  may_proceed w1 = false ∧
  (invocations 0 (new_history world0 w2) ≤ 1)%nat ∧
  (may_proceed w2 = true ↔ invocations 0 (new_history world0 w2) = 1%nat).
Proof.
  apply (event_gated_by_one_token (combat_run (mkRunSummary Warrior false)) world0
           [InitGameResolves; Acknowledge]).
  repeat split; reflexivity.
Defined.

(** Scenario C: the run attempt fails; nothing proceeds until the
    notification is acknowledged. *)
Example scenario_failed_run :
  let w1 := _bindRenderCombat (combat_run (mkRunSummary Warrior false)) world0 in
  message <$> shown w1 = ["Warrior failed to escape!"] ∧
  may_proceed w1 = false ∧
  may_proceed (run_stimuli [InitGameResolves] w1) = false ∧
  may_proceed (run_stimuli [Acknowledge] w1) = true.
Proof. vm_compute. done. Qed.

(** ** C7: defeat reinitializes the game before the token is invoked *)

(** C7: from a quiescent world, acknowledging the defeat notification calls
    [initGame] and leaves the token outstanding; the resolution of
    [initGame] then invokes the token. Whatever the environment does, no
    invocation of the token precedes the resolution of [initGame], and once
    the token has been invoked the history is: token obtained, notification
    shown, acknowledged, [initGame] called, [initGame] resolved, token
    invoked. *)
Theorem defeat_reinitialises_before_completion data w stimuli :
  quiescent w ->
  let t := issued (gate w) in
  let w1 := _bindRenderCombat (combat_defeat data) w in
  let w2 := run_stimuli stimuli w1 in
  new_history w1 (react Acknowledge w1)
    = [Acknowledged defeat_message; InitGameCalled] ∧
  reinitialising (react Acknowledge w1) = [CompletionToken t] ∧
  outstanding (gate (react Acknowledge w1)) = [t] ∧
  new_history w1 (react InitGameResolves (react Acknowledge w1))
    = [Acknowledged defeat_message; InitGameCalled; InitGameResolved; Invoked t] ∧
  outstanding (gate (react InitGameResolves (react Acknowledge w1))) = [] ∧
  invoked_only_after_resolved t false (new_history w w2) = true ∧
  (invocations t (new_history w w2) = 1%nat ->
   new_history w w2
   = [Waited t; Shown defeat_message; Acknowledged defeat_message;
      InitGameCalled; InitGameResolved; Invoked t]).
Proof.
  intros Hq t w1 w2.
  destruct (handler_shape (combat_defeat data) w Hq)
    as (msg & dur & Hs & Hr & Ho & _ & Hh).
  fold w1 in Hs, Hr, Ho, Hh. fold t in Hs, Ho, Hh. cbn [handed_over] in Hs.
  assert (Hmsg : msg = defeat_message).
  { destruct Hq as (Hqo & Hqs & Hqr). subst w1.
    cbn in Hs. rewrite Hqs in Hs. cbn in Hs. by injection Hs as <- _. }
  subst msg.
  destruct (run_stimuli_progress t defeat_message dur _ w1 stimuli
              (or_intror eq_refl) Hs Hr Ho) as (k & Hk & Hp).
  fold w2 in Hk, Hp. rewrite Hh, <- app_assoc in Hk.
  rewrite (new_history_app _ _ _ Hk).
  clearbody w2 w1 t.
  split_and!.
  - apply new_history_app. cbn. rewrite Hs. cbn. by rewrite <- app_assoc.
  - cbn. rewrite Hs. cbn. by rewrite Hr.
  - cbn. rewrite Hs. cbn. exact Ho.
  - apply new_history_app. cbn. rewrite Hs. cbn. rewrite Hr. cbn.
    by rewrite <- !app_assoc.
  - cbn. rewrite Hs. cbn. rewrite Hr. cbn. rewrite Ho. apply filter_release.
  - inversion Hp; subst; cbn; by rewrite ?Nat.eqb_refl.
  - inversion Hp; subst; unfold invocations; cbn; rewrite ?Nat.eqb_refl; cbn;
      (done || lia).
Qed.

Lemma defeat_reinitialises_before_completion_witness :
  let w1 := _bindRenderCombat (combat_defeat mkDefeatSummary) world0 in
  let w2 := run_stimuli [Acknowledge; Acknowledge; InitGameResolves] w1 in
  new_history w1 (react Acknowledge w1)
    = [Acknowledged defeat_message; InitGameCalled] ∧
  reinitialising (react Acknowledge w1) = [CompletionToken 0] ∧
  outstanding (gate (react Acknowledge w1)) = [0%nat] ∧
  new_history w1 (react InitGameResolves (react Acknowledge w1))
    = [Acknowledged defeat_message; InitGameCalled; InitGameResolved; Invoked 0] ∧
  outstanding (gate (react InitGameResolves (react Acknowledge w1))) = [] ∧
  invoked_only_after_resolved 0 false (new_history world0 w2) = true ∧
  (invocations 0 (new_history world0 w2) = 1%nat ->
   new_history world0 w2
   = [Waited 0; Shown defeat_message; Acknowledged defeat_message;
      InitGameCalled; InitGameResolved; Invoked 0]).
Proof.
  apply (defeat_reinitialises_before_completion mkDefeatSummary world0
           [Acknowledge; Acknowledge; InitGameResolves]).
  repeat split; reflexivity.
Defined.

(** ** C9: the damage record and the narration *)

Lemma applyDamage_record to v w :
  damages (combat (applyDamage to v w))
  = (damages (combat w)
     ++ [mkDamage (now w + 5000) (Z.abs v) (mkClasses (v =? 0)%Z (v <? 0)%Z)
           (let p := worldToScreen (combat w)
                       (mkPoint (point_x (point to) - point_x (camera_point (combat w)))%Q
                          (point_y (point to)
                           - (point_y (camera_point (combat w)) + (5 # 4)))%Q)
                       (cameraScale (combat w)) in
            mkPoint (point_x p + canvas_offsetLeft (combat w))%Q
                    (point_y p + canvas_offsetTop (combat w))%Q)])%list.
Proof. reflexivity. Qed.

Lemma on_combat_attack_damages data w :
  damages (combat (on_combat_attack data w))
  = damages (combat (applyDamage (defender data) (damage data) w)).
Proof.
  unfold on_combat_attack, notifyWait, notify_show, shake, record.
  by destruct (_ && _).
Qed.

Lemma on_combat_attack_shown data w :
  shown (on_combat_attack data w)
  = (shown w
     ++ [mkNotification
           (if (0 <? damage data)%Z then
              model_name (attacker data) ++ " attacked " ++ model_name (defender data)
              ++ " for " ++ pretty (damage data) ++ " damage!"
            else if (damage data <? 0)%Z then
              model_name (attacker data) ++ " healed " ++ model_name (defender data)
              ++ " for " ++ pretty (Z.abs (damage data)) ++ " hit points"
            else
              model_name (attacker data) ++ " attacked " ++ model_name (defender data)
              ++ ", and MISSED!")
           (CompletionToken (issued (gate w))) None])%list.
Proof.
  unfold on_combat_attack, notifyWait, notify_show, shake, applyDamage, record.
  by destruct (_ && _).
Qed.

(** C9: for every effect value [v] of a resolved attack, the handler adds
    one damage record, which is a miss if and only if [v = 0], a heal if and
    only if [v < 0], and displays [|v|]; and it shows one message, which
    reports the damage when [v > 0], the healing of [|v|] hit points when
    [v < 0], and the miss when [v = 0]. *)
Theorem attack_effect_presentation data w :
  let v := damage data in
  let a := model_name (attacker data) in
  let b := model_name (defender data) in
  ∃ d n,
    damages (combat (on_combat_attack data w)) = (damages (combat w) ++ [d])%list ∧
    shown (on_combat_attack data w) = (shown w ++ [n])%list ∧
    (miss (classes d) = true ↔ v = 0) ∧
    (heal (classes d) = true ↔ v < 0) ∧
    value d = Z.abs v ∧
    (0 < v -> message n = a ++ " attacked " ++ b ++ " for " ++ pretty v ++ " damage!") ∧
    (v < 0 -> message n
              = a ++ " healed " ++ b ++ " for " ++ pretty (Z.abs v) ++ " hit points") ∧
    (v = 0 -> message n = a ++ " attacked " ++ b ++ ", and MISSED!").
Proof.
  intros v a b. subst v a b. eexists _, _.
  split; [rewrite on_combat_attack_damages; apply applyDamage_record|].
  split; [apply on_combat_attack_shown|].
  cbn [miss heal classes value message].
  split_and!.
  - apply Z.eqb_eq.
  - apply Z.ltb_lt.
  - reflexivity.
  - intros H. apply Z.ltb_lt in H. by rewrite H.
  - intros H. assert (H0 : (0 <? damage data)%Z = false) by (apply Z.ltb_ge; lia).
    apply Z.ltb_lt in H. by rewrite H0, H.
  - intros H. by rewrite H.
Qed.

Example narration_damage :
  message <$> shown (on_combat_attack goblin_hits_warrior world0)
  = ["Goblin attacked Warrior for 3 damage!"].
Proof. vm_compute. reflexivity. Qed.

Example narration_heal :
  message <$> shown (on_combat_attack mage_heals_warrior world0)
  = ["Mage healed Warrior for 4 hit points"]
  ∧ (fun d => (value d, miss (classes d), heal (classes d)))
      <$> damages (combat (on_combat_attack mage_heals_warrior world0))
    = [(4, false, true)].
Proof. vm_compute. done. Qed.

Example narration_miss :
  message <$> shown (on_combat_attack warrior_misses_goblin world0)
  = ["Warrior attacked Goblin, and MISSED!"]
  ∧ (fun d => (value d, miss (classes d), heal (classes d)))
      <$> damages (combat (on_combat_attack warrior_misses_goblin world0))
    = [(0, true, false)].
Proof. vm_compute. done. Qed.

(** ** C10: the camera shake *)

Lemma on_combat_attack_shakes data w :
  shakes (on_combat_attack data w)
  = if (0 <? damage data)%Z && instanceof_CombatPlayerComponent (defender data)
    then (shakes w ++ [mkShake canvasElementRef (3 # 10)])%list
    else shakes w.
Proof.
  unfold on_combat_attack, notifyWait, notify_show, shake, applyDamage, record.
  by destruct (_ && _).
Qed.

(** C10: the handler of [combat:attack] starts a shake of the canvas if and
    only if the damage is strictly positive and the defender is a
    [CombatPlayerComponent]; otherwise the shakes are left as they were. *)
Theorem attack_shakes_iff data w :
  let hit_player :=
    0 < damage data ∧ entity_class (defender data) = CombatPlayerComponent in
  (hit_player ->
   shakes (on_combat_attack data w)
   = (shakes w ++ [mkShake canvasElementRef (3 # 10)])%list) ∧
  (¬ hit_player -> shakes (on_combat_attack data w) = shakes w) ∧
  (length (shakes (on_combat_attack data w)) = S (length (shakes w)) ↔ hit_player).
Proof.
  intros hit_player.
  assert (Hspec : (0 <? damage data)%Z && instanceof_CombatPlayerComponent (defender data)
                  = true ↔ hit_player).
  { unfold hit_player, instanceof_CombatPlayerComponent.
    rewrite andb_true_iff, Z.ltb_lt.
    destruct (entity_class (defender data)); intuition congruence. }
  rewrite on_combat_attack_shakes.
  destruct (_ && _).
  - split_and!; [done | intros Hn; destruct Hn; by apply Hspec |].
    rewrite length_app. cbn. split; [intros _; by apply Hspec | lia].
  - assert (Hn : ¬ hit_player) by (intros H; by apply Hspec in H).
    split_and!; [done | done |]. split; [lia | done].
Qed.

Example shake_when_player_is_hit :
  shakes (on_combat_attack goblin_hits_warrior world0) = [mkShake "combatCanvas" (3 # 10)]
  ∧ shakes (on_combat_attack warrior_hits_goblin world0) = []
  ∧ shakes (on_combat_attack mage_heals_warrior world0) = []
  ∧ shakes (on_combat_attack warrior_misses_goblin world0) = [].
Proof. vm_compute. done. Qed.

(** * Part VI: further properties of the choose-action state *)

(** ** Entering the state *)

(** X1: [enter] succeeds exactly when the machine has a scene; without one it
    throws before anything is written, the machine reference included. *)
Theorem enter_fails_without_scene shuffle s :
  (completion (enter shuffle) s = Normal tt ↔ scene (the_machine s) ≠ None) ∧
  (scene (the_machine s) = None ->
   enter shuffle s = (Throw (Error "Invalid Combat Scene"), s)).
Proof.
  split; [|apply enter_no_scene].
  unfold completion. destruct (scene (the_machine s)) as [sc|] eqn:Hsc.
  - rewrite (enter_entered shuffle sc s Hsc). done.
  - rewrite (enter_no_scene shuffle s Hsc). cbn. split; [discriminate | done].
Qed.

(** X2: Whatever the previous round left in the Turn Order, the current
    combatant, the Player Choice Map, the Pending Set, the sub-machine and
    the list of combatants still to choose, [enter] overwrites it: the
    result is the same, the Player Choice Map is empty and the Pending Set
    is the living party. *)
Theorem enter_ignores_previous_round shuffle sc s tl cur cd pc pend mach sm ch :
  scene (the_machine s) = Some sc ->
  enter shuffle (with_previous_round tl cur cd pc pend mach sm ch s) = enter shuffle s ∧
  playerChoices (the_machine (exec (enter shuffle) s)) = ∅ ∧
  pending (this (exec (enter shuffle) s)) = getLiveParty (the_machine s).
Proof.
  intros Hsc.
  assert (Hsc' : scene (the_machine (with_previous_round tl cur cd pc pend mach sm ch s))
                 = Some sc) by exact Hsc.
  unfold exec. rewrite (enter_entered shuffle sc _ Hsc'), (enter_entered shuffle sc s Hsc).
  done.
Qed.

Lemma enter_ignores_previous_round_witness :
  enter shuffle_rev
    (with_previous_round [Ghost] (Some Ghost) false {[ "9" := guard Ghost ]} [Goblin]
       false None [Mage] storeB)
  = enter shuffle_rev storeB ∧
  playerChoices (the_machine (exec (enter shuffle_rev) storeB)) = ∅ ∧
  pending (this (exec (enter shuffle_rev) storeB)) = getLiveParty (the_machine storeB).
Proof.
  apply (enter_ignores_previous_round shuffle_rev (mkScene "combat") storeB).
  reflexivity.
Defined.

(** X3: With a shuffle that permutes, every combatant of the Pending Set is a
    living party member and has a place in the acting order of the round;
    the sub-machine is handed the Pending Set and living enemies only. *)
Theorem enter_pending_will_act
    (shuffle : list GameEntityObject -> list GameEntityObject) sc s :
  (∀ l, shuffle l ≡ₚ l) ->
  scene (the_machine s) = Some sc ->
  Forall (fun p => p ∈ acting_order (exec (enter shuffle) s)
                   ∧ isDefeated p = false
                   ∧ p ∈ party (the_machine s))
         (pending (this (exec (enter shuffle) s))) ∧
  (∀ sm, _currentMachine (this (exec (enter shuffle) s)) = Some sm ->
         players (data sm) = pending (this (exec (enter shuffle) s)) ∧
         Forall (fun e => isDefeated e = false ∧ e ∈ enemies (the_machine s))
                (chooseData_enemies (data sm))).
Proof.
  intros Hperm Hsc.
  assert (Hord : acting_order (exec (enter shuffle) s) ≡ₚ alive_at_start s).
  { unfold exec, acting_order. rewrite (enter_entered shuffle sc s Hsc).
    cbn. rewrite head_tail_option_list. apply Hperm. }
  assert (Hlive : ∀ e l, e ∈ List.filter (fun e => negb (isDefeated e)) l ->
                         isDefeated e = false ∧ e ∈ l).
  { intros e l He. split; [by apply getLive_alive in He|].
    apply list_elem_of_In. apply list_elem_of_In, filter_In in He. tauto. }
  split.
  - apply Forall_forall. intros p Hp. rewrite Hord.
    unfold exec in Hp. rewrite (enter_entered shuffle sc s Hsc) in Hp. cbn in Hp.
    split; [unfold alive_at_start; apply elem_of_app; by left|].
    by apply Hlive.
  - intros sm. unfold exec. rewrite (enter_entered shuffle sc s Hsc). cbn.
    destruct (getLiveParty (the_machine s)) as [|p l]; [discriminate|].
    intros [= <-]. cbn. split; [done|].
    apply Forall_forall. intros e He. by apply Hlive.
Qed.

Lemma enter_pending_will_act_witness :
  Forall (fun p => p ∈ acting_order (exec (enter shuffle_rev) store0)
                   ∧ isDefeated p = false
                   ∧ p ∈ party (the_machine store0))
         (pending (this (exec (enter shuffle_rev) store0))) ∧
  pending (this (exec (enter shuffle_rev) store0)) = [Warrior; Mage].
Proof.
  split; [|reflexivity].
  apply (enter_pending_will_act shuffle_rev (mkScene "combat") store0
           shuffle_rev_permutation eq_refl).
Defined.

(** ** The submission callback, algebraically *)

Lemma choose_then {A} action (m : M A) s :
  (choose action ;;; m) s = m (exec (choose action) s).
Proof.
  unfold bind, exec. pose proof (choose_completion action s) as Hc.
  unfold completion in Hc. destruct (choose action s) as [c s']. cbn in *.
  by rewrite Hc.
Qed.

Lemma remaining_sublist action l : remaining action l `sublist_of` l.
Proof.
  induction l as [|p l IH]; [constructor|].
  cbn. destruct (negb _); by constructor.
Qed.

Lemma remaining_without_actor action l :
  Forall (fun p => _uid p ≠ _uid (from action)) (remaining action l).
Proof.
  apply Forall_forall. intros p Hp.
  apply list_elem_of_In, filter_In in Hp as [_ Hp].
  apply negb_true_iff in Hp.
  destruct (String.eqb_spec (_uid (from action)) (_uid p)); [discriminate | congruence].
Qed.

Lemma remaining_shorter action l :
  Exists (fun p => _uid p = _uid (from action)) l ->
  (length (remaining action l) < length l)%nat.
Proof.
  induction 1 as [p l Hp | p l _ IH].
  - pose proof (sublist_length _ _ (remaining_sublist action l)) as Hle.
    unfold remaining in *. cbn [List.filter].
    rewrite <- Hp in Hle |- *. rewrite String.eqb_refl. cbn. lia.
  - pose proof (sublist_length _ _ (remaining_sublist action l)) as Hle.
    unfold remaining in *. cbn. destruct (negb _); cbn; lia.
Qed.

(** X4: The Pending Set only shrinks: after a submission it is a sub-sequence of
    what it was, the actor is no longer in it, and it is strictly shorter
    when the actor was pending. *)
Theorem choose_shrinks_pending action s :
  pending (this (exec (choose action) s)) `sublist_of` pending (this s) ∧
  ¬ is_pending (from action) (exec (choose action) s) ∧
  (is_pending (from action) s ->
   (length (pending (this (exec (choose action) s))) < length (pending (this s)))%nat).
Proof.
  unfold is_pending. rewrite choose_pending. split_and!.
  - apply remaining_sublist.
  - apply Forall_Exists_neg, remaining_without_actor.
  - apply remaining_shorter.
Qed.

Lemma remaining_remaining action l :
  remaining action (remaining action l) = remaining action l.
Proof. apply remaining_not_pending, remaining_without_actor. Qed.

Lemma remaining_comm a b l :
  remaining a (remaining b l) = remaining b (remaining a l).
Proof.
  induction l as [|p l IH]; [done|].
  unfold remaining in *. cbn.
  destruct (negb (String.eqb (_uid (from b)) (_uid p))) eqn:Eb;
    destruct (negb (String.eqb (_uid (from a)) (_uid p))) eqn:Ea;
    cbn; rewrite ?Ea, ?Eb; by rewrite ?IH.
Qed.

(** X5: Submitting the same action twice in a row leaves the round as one
    submission does: same Pending Set, Player Choice Map, Turn Order and
    machine state. *)
Theorem choose_twice_is_once action s :
  round_state (exec (choose action ;;; choose action) s)
    = round_state (exec (choose action) s) ∧
  currentState (the_machine (exec (choose action ;;; choose action) s))
    = currentState (the_machine (exec (choose action) s)).
Proof.
  unfold exec at 1 3. rewrite !choose_then. fold (exec (choose action) (exec (choose action) s)).
  unfold round_state.
  rewrite !choose_pending, !choose_playerChoices, !choose_turnList, !choose_currentState.
  rewrite !choose_pending, remaining_remaining, insert_insert_eq.
  split; [done|]. by destruct (remaining action (pending (this s))).
Qed.

(** X6: Submissions of two different combatants can arrive in either order: the
    Pending Set, the Player Choice Map, the Turn Order and the machine state
    come out the same. *)
Theorem choose_order_irrelevant a b s :
  _uid (from a) ≠ _uid (from b) ->
  round_state (exec (choose a ;;; choose b) s)
    = round_state (exec (choose b ;;; choose a) s) ∧
  currentState (the_machine (exec (choose a ;;; choose b) s))
    = currentState (the_machine (exec (choose b ;;; choose a) s)).
Proof.
  intros Hne. unfold exec at 1 2 3 4. rewrite !choose_then.
  fold (exec (choose b) (exec (choose a) s)). fold (exec (choose a) (exec (choose b) s)).
  unfold round_state.
  rewrite !choose_pending, !choose_playerChoices, !choose_turnList, !choose_currentState.
  rewrite ?choose_pending, ?choose_currentState, ?choose_pending.
  rewrite (remaining_comm b a), (insert_insert_ne _ _ _ _ _ Hne).
  split; [done|].
  destruct (remaining a (remaining b (pending (this s)))) as [|q l] eqn:EL; [done|].
  assert (Ha : remaining a (pending (this s)) ≠ []).
  { intros E. rewrite remaining_comm, E in EL. discriminate EL. }
  assert (Hb : remaining b (pending (this s)) ≠ []).
  { intros E. rewrite E in EL. discriminate EL. }
  by destruct (remaining a (pending (this s))), (remaining b (pending (this s))).
Qed.

Lemma choose_order_irrelevant_witness :
  round_state (exec (choose (attack Warrior Goblin) ;;; choose (guard Mage)) storeB)
    = round_state (exec (choose (guard Mage) ;;; choose (attack Warrior Goblin)) storeB) ∧
  currentState (the_machine
    (exec (choose (attack Warrior Goblin) ;;; choose (guard Mage)) storeB))
    = currentState (the_machine
        (exec (choose (guard Mage) ;;; choose (attack Warrior Goblin)) storeB)).
Proof.
  apply (choose_order_irrelevant (attack Warrior Goblin) (guard Mage) storeB).
  discriminate.
Defined.

(** ** A whole round of choices *)

Lemma choose_current action s :
  current (the_machine (exec (choose action) s)) = current (the_machine s).
Proof. run. by destruct (_ =? _)%nat. Qed.

Lemma chooseSubmit_acting_order action s sm :
  _currentMachine (this s) = Some sm ->
  acting_order (exec (chooseSubmit action) s) = acting_order s.
Proof.
  intros Hm. unfold exec at 1. rewrite (chooseSubmit_relays action s sm Hm).
  pose proof (choose_choices action s) as Hch.
  pose proof (choose__currentMachine action s) as Hcm. rewrite Hm in Hcm.
  unfold acting_order.
  rewrite <- (choose_current action s), <- (choose_turnList action s).
  destruct (choices s) as [|q l].
  - by rewrite (next_none _ Hch).
  - by rewrite (next_pops _ q l sm Hch Hcm).
Qed.

Lemma submit_all_in_order actions : ∀ s,
  presenting s ->
  distinct_uids (pending (this s)) ->
  Forall2 (fun p action => _uid (from action) = _uid p) (pending (this s)) actions ->
  pending (this s) ≠ [] ->
  completion (submit_all actions) s = Normal tt ∧
  pending (this (exec (submit_all actions) s)) = [] ∧
  currentState (the_machine (exec (submit_all actions) s)) = begin_turn ∧
  playerChoices (the_machine (exec (submit_all actions) s))
    = record_choices actions (playerChoices (the_machine s)) ∧
  _currentMachine (this (exec (submit_all actions) s)) = None ∧
  acting_order (exec (submit_all actions) s) = acting_order s.
Proof.
  induction actions as [|action rest IH]; intros s Hpres Hnd Hall Hne.
  { apply Forall2_nil_inv_r in Hall. done. }
  unfold presenting in Hpres.
  destruct (_currentMachine (this s)) as [sm|] eqn:Hm; [|by destruct Hpres].
  destruct Hpres as (p & _ & Hp).
  rewrite Hp in Hall. apply Forall2_cons_1 in Hall as [Hid Hall].
  destruct (chooseSubmit_in_order s sm p action Hm Hp Hid Hnd)
    as (Hc & Hpe & Hpres' & Hpc & Hcs).
  pose proof (chooseSubmit_acting_order action s sm Hm) as Hao.
  assert (Hrun : submit_all (action :: rest) s
                 = submit_all rest (exec (chooseSubmit action) s)).
  { cbn [submit_all]. unfold bind, exec. unfold completion in Hc.
    destruct (chooseSubmit action s) as [c s']. cbn in Hc. by rewrite Hc. }
  assert (Hnd' : distinct_uids (choices s)).
  { unfold distinct_uids in *. rewrite Hp, fmap_cons in Hnd.
    by apply NoDup_cons in Hnd as [_ Hnd]. }
  unfold completion, exec at 1 2 3 4 5. rewrite Hrun.
  destruct (choices s) as [|q l] eqn:Hch.
  - apply Forall2_nil_inv_l in Hall. subst rest. cbn [submit_all ret fst snd].
    unfold presenting in Hpres'. rewrite Hpe in Hpres'.
    destruct (_currentMachine (this (exec (chooseSubmit action) s)));
      [by destruct Hpres' as (? & _ & ?)|].
    split_and!; [done | by rewrite Hpe | by rewrite Hcs | by rewrite Hpc | done | done].
  - rewrite <- Hpe in Hnd', Hall.
    assert (Hne' : pending (this (exec (chooseSubmit action) s)) ≠ [])
      by (by rewrite Hpe).
    destruct (IH _ Hpres' Hnd' Hall Hne') as (Hc' & Hp' & Hs' & Hpc' & Hm' & Hao').
    split_and!; [exact Hc' | exact Hp' | exact Hs' | | exact Hm' |].
    + etrans; [exact Hpc'|]. by rewrite Hpc.
    + etrans; [exact Hao'|]. exact Hao.
Qed.

Lemma record_choices_lookup_other actions : ∀ pc uid,
  uid ∉ (fun action => _uid (from action)) <$> actions ->
  record_choices actions pc !! uid = pc !! uid.
Proof.
  induction actions as [|action rest IH]; intros pc uid Hnotin; [done|].
  rewrite fmap_cons in Hnotin. apply not_elem_of_cons in Hnotin as [Hne Hnotin].
  cbn. change (record_choices rest (<[_uid (from action):=action]> pc) !! uid = pc !! uid).
  rewrite (IH _ _ Hnotin). by apply lookup_insert_ne.
Qed.

Lemma record_choices_lookup actions : ∀ pc action,
  NoDup ((fun action => _uid (from action)) <$> actions) ->
  action ∈ actions ->
  record_choices actions pc !! _uid (from action) = Some action.
Proof.
  induction actions as [|a rest IH]; intros pc action Hnd Hin.
  { by apply not_elem_of_nil in Hin. }
  rewrite fmap_cons in Hnd. apply NoDup_cons in Hnd as [Hnotin Hnd].
  change (record_choices rest (<[_uid (from a):=a]> pc) !! _uid (from action) = Some action).
  apply elem_of_cons in Hin as [-> | Hin].
  - rewrite (record_choices_lookup_other rest _ _ Hnotin). apply lookup_insert_eq.
  - by apply IH.
Qed.

Lemma record_choices_dom actions : ∀ pc,
  dom (record_choices actions pc)
  = list_to_set ((fun action => _uid (from action)) <$> actions) ∪ dom pc.
Proof.
  induction actions as [|a rest IH]; intros pc.
  { cbn. by rewrite (left_id_L ∅ (∪)). }
  change (dom (record_choices rest (<[_uid (from a):=a]> pc))
          = list_to_set ((fun action => _uid (from action)) <$> a :: rest) ∪ dom pc).
  rewrite IH, dom_insert_L, fmap_cons, list_to_set_cons.
  by rewrite (assoc_L (∪)), (comm_L (∪) (list_to_set _) {[_]}).
Qed.

Lemma submitted_uids l actions :
  Forall2 (fun p action => _uid (from action) = _uid p) l actions ->
  (fun action => _uid (from action)) <$> actions = _uid <$> l.
Proof. induction 1 as [|p a l actions Hid _ IH]; [done|]. cbn. by rewrite Hid, IH. Qed.

(** X8: A round from entry to [begin-turn]: when the living party is not empty,
    has distinct ids and submits in roster order, the machine ends in
    [begin-turn] with nobody pending and the sub-machine dropped; the acting
    order set by [enter] is untouched by the submissions, and the Player
    Choice Map holds exactly one entry per living party member, the action
    that member submitted. *)
Theorem enter_then_submissions_fill_the_map shuffle sc s actions :
  scene (the_machine s) = Some sc ->
  getLiveParty (the_machine s) ≠ [] ->
  distinct_uids (getLiveParty (the_machine s)) ->
  Forall2 (fun p action => _uid (from action) = _uid p)
          (getLiveParty (the_machine s)) actions ->
  completion (enter shuffle ;;; submit_all actions) s = Normal tt ∧
  currentState (the_machine (exec (enter shuffle ;;; submit_all actions) s)) = begin_turn ∧
  pending (this (exec (enter shuffle ;;; submit_all actions) s)) = [] ∧
  _currentMachine (this (exec (enter shuffle ;;; submit_all actions) s)) = None ∧
  acting_order (exec (enter shuffle ;;; submit_all actions) s)
    = shuffle (alive_at_start s) ∧
  (∀ action, action ∈ actions ->
     playerChoices (the_machine (exec (enter shuffle ;;; submit_all actions) s))
       !! _uid (from action) = Some action) ∧
  dom (playerChoices (the_machine (exec (enter shuffle ;;; submit_all actions) s)))
    = list_to_set (_uid <$> getLiveParty (the_machine s)).
Proof.
  intros Hsc Hne Hnd Hall.
  assert (Hrun : (enter shuffle ;;; submit_all actions) s
                 = submit_all actions (entered shuffle sc s)).
  { unfold bind. by rewrite (enter_entered shuffle sc s Hsc). }
  unfold completion, exec. rewrite Hrun.
  pose proof (entered_presenting shuffle sc s Hsc) as Hpres.
  unfold exec in Hpres. rewrite (enter_entered shuffle sc s Hsc) in Hpres.
  cbn [snd] in Hpres.
  destruct (submit_all_in_order actions (entered shuffle sc s) Hpres Hnd Hall Hne)
    as (Hc & Hp & Hs & Hpc & Hm & Hao).
  unfold completion, exec in *.
  assert (Huids : NoDup ((fun action => _uid (from action)) <$> actions))
    by (by rewrite (submitted_uids _ _ Hall)).
  split_and!; [exact Hc | exact Hs | exact Hp | exact Hm | | |].
  - rewrite Hao. unfold acting_order, entered. cbn. apply head_tail_option_list.
  - intros action Hin. rewrite Hpc. by apply record_choices_lookup.
  - rewrite Hpc, record_choices_dom, (submitted_uids _ _ Hall).
    unfold entered. cbn. by rewrite dom_empty_L, (right_id_L ∅ (∪)).
Qed.

Lemma enter_then_submissions_fill_the_map_witness :
  let actions := [attack Warrior Goblin; guard Mage] in
  completion (enter shuffle_rev ;;; submit_all actions) store0 = Normal tt ∧
  currentState (the_machine (exec (enter shuffle_rev ;;; submit_all actions) store0))
    = begin_turn ∧
  acting_order (exec (enter shuffle_rev ;;; submit_all actions) store0)
    = [Goblin; Mage; Warrior] ∧
  playerChoices (the_machine (exec (enter shuffle_rev ;;; submit_all actions) store0))
    !! "2" = Some (guard Mage).
Proof.
  intros actions.
  destruct (enter_then_submissions_fill_the_map shuffle_rev (mkScene "combat") store0 actions)
    as (Hc & Hs & _ & _ & Hao & Hpc & _).
  - reflexivity.
  - vm_compute. discriminate.
  - unfold distinct_uids. vm_compute.
    repeat (constructor; [rewrite ?list_elem_of_In; cbn; intuition discriminate|]).
    constructor.
  - vm_compute getLiveParty. repeat constructor.
  - split_and!; [exact Hc | exact Hs | exact Hao |].
    apply (Hpc (guard Mage)). apply elem_of_cons. right. apply elem_of_cons. by left.
Defined.

(** ** Submissions that are not for the presented combatant *)

Lemma remaining_keeps action p l :
  p ∈ l -> _uid (from action) ≠ _uid p -> p ∈ remaining action l.
Proof.
  intros Hin Hne. apply list_elem_of_In, filter_In. split; [by apply list_elem_of_In|].
  apply negb_true_iff. by destruct (String.eqb_spec (_uid (from action)) (_uid p)).
Qed.

(** X9: The sub-machine advances by counting, not by looking at the actor. If a
    pending combatant [p] gets none of the submissions, then after as many
    submissions as there were combatants to present the sub-machine is
    dropped, [p] is still pending, the machine has made no transition, and
    every further submit raises a [TypeError] and changes nothing. *)
Theorem submissions_for_others_stall p actions : ∀ s sm,
  _currentMachine (this s) = Some sm ->
  p ∈ pending (this s) ->
  Forall (fun action => _uid (from action) ≠ _uid p) actions ->
  length actions = S (length (choices s)) ->
  completion (submit_all actions) s = Normal tt ∧
  p ∈ pending (this (exec (submit_all actions) s)) ∧
  _currentMachine (this (exec (submit_all actions) s)) = None ∧
  currentState (the_machine (exec (submit_all actions) s)) = currentState (the_machine s) ∧
  ∀ action,
    chooseSubmit action (exec (submit_all actions) s)
    = (Throw TypeError, exec (submit_all actions) s).
Proof.
  induction actions as [|action rest IH]; intros s sm Hm Hp Hall Hlen; [discriminate|].
  apply Forall_cons in Hall as [Hne Hall].
  pose proof (chooseSubmit_relays action s sm Hm) as Hrel.
  pose proof (choose_choices action s) as Hch.
  pose proof (choose__currentMachine action s) as Hcm. rewrite Hm in Hcm.
  pose proof (choose_pending action s) as Hpe.
  pose proof (choose_currentState action s) as Hcs.
  pose proof (remaining_keeps action p _ Hp Hne) as Hp'.
  assert (Hcs' : currentState (the_machine (exec (choose action) s))
                 = currentState (the_machine s)).
  { rewrite Hcs. destruct (remaining action (pending (this s))); [|done].
    by apply not_elem_of_nil in Hp'. }
  rewrite <- Hpe in Hp'.
  set (s1 := exec (chooseSubmit action) s).
  assert (Hrun : submit_all (action :: rest) s = submit_all rest s1).
  { cbn [submit_all]. unfold bind, s1, exec. rewrite Hrel.
    destruct (choices s) as [|q l].
    - by rewrite (next_none _ Hch).
    - by rewrite (next_pops _ q l sm Hch Hcm). }
  assert (Hs1 : p ∈ pending (this s1)
                ∧ currentState (the_machine s1) = currentState (the_machine s)
                ∧ match choices s with
                  | [] => _currentMachine (this s1) = None
                  | q :: l => _currentMachine (this s1) = Some (choosing q sm)
                              ∧ choices s1 = l
                  end).
  { unfold s1, exec. rewrite Hrel.
    destruct (choices s) as [|q l].
    - by rewrite (next_none _ Hch).
    - by rewrite (next_pops _ q l sm Hch Hcm). }
  destruct Hs1 as (Hp1 & Hcs1 & Hm1).
  unfold completion, exec. rewrite Hrun.
  destruct (choices s) as [|q l] eqn:Hc.
  - destruct rest; [|discriminate Hlen].
    cbn [submit_all ret fst snd].
    split_and!; [done | exact Hp1 | exact Hm1 | exact Hcs1 |].
    intros a. by apply chooseSubmit_inert.
  - destruct Hm1 as [Hm1 Hch1].
    destruct (IH s1 (choosing q sm)) as (Hc2 & Hp2 & Hm2 & Hs2 & Hthrow);
      [exact Hm1 | exact Hp1 | exact Hall | rewrite Hch1; cbn in Hlen; lia |].
    split_and!; [exact Hc2 | exact Hp2 | exact Hm2 | | exact Hthrow].
    etrans; [exact Hs2|]. exact Hcs1.
Qed.

Lemma submissions_for_others_stall_witness :
  let s := exec (enter shuffle_id) store0 in
  let actions := [guard Mage; guard Mage] in
  completion (submit_all actions) s = Normal tt ∧
  Warrior ∈ pending (this (exec (submit_all actions) s)) ∧
  _currentMachine (this (exec (submit_all actions) s)) = None ∧
  currentState (the_machine (exec (submit_all actions) s)) = choose_action.
Proof.
  intros s actions.
  assert (Hm : ∃ sm, _currentMachine (this s) = Some sm) by (eexists; reflexivity).
  destruct Hm as [sm Hm].
  destruct (submissions_for_others_stall Warrior actions s sm Hm)
    as (Hc & Hp & Hn & Hs & _).
  - vm_compute pending. apply elem_of_cons. by left.
  - repeat constructor; discriminate.
  - reflexivity.
  - split_and!; [exact Hc | exact Hp | exact Hn | exact Hs].
Defined.

(** ** The pointer element *)

Lemma removeClass_absent clazz cl : clazz ∉ removeClass clazz cl.
Proof.
  intros Hin. apply list_elem_of_In, filter_In in Hin as [_ Hin].
  by rewrite String.eqb_refl in Hin.
Qed.

Lemma removeClass_other clazz c cl : c ≠ clazz -> c ∈ removeClass clazz cl ↔ c ∈ cl.
Proof.
  intros Hne. unfold removeClass. rewrite !list_elem_of_In, filter_In.
  destruct (String.eqb_spec c clazz); [done|]. cbn. tauto.
Qed.

Lemma addClass_elem clazz c cl : c ∈ addClass clazz cl ↔ c = clazz ∨ c ∈ cl.
Proof.
  unfold addClass. destruct (existsb _ cl) eqn:Hex.
  - apply existsb_exists in Hex as (c' & Hin & Heq).
    apply String.eqb_eq in Heq as <-. apply list_elem_of_In in Hin.
    split; [by right | by intros [-> | ?]].
  - rewrite elem_of_app, list_elem_of_singleton. tauto.
Qed.

Lemma removeClass_not_in clazz cl : clazz ∉ cl -> removeClass clazz cl = cl.
Proof.
  induction cl as [|c cl IH]; [done|]. intros Hnotin.
  apply not_elem_of_cons in Hnotin as [Hne Hnotin].
  unfold removeClass in *. cbn [List.filter].
  destruct (String.eqb_spec c clazz); [congruence|]. cbn [negb]. by rewrite IH.
Qed.

Lemma removeClass_app clazz cl1 cl2 :
  removeClass clazz (cl1 ++ cl2) = (removeClass clazz cl1 ++ removeClass clazz cl2)%list.
Proof. apply List.filter_app. Qed.

(** X10: After [setPointerTarget(object, d)] with [d] one of ['left'] and
    ['right'], the pointer element carries [d] and not the other direction,
    and every other class is on the element exactly when it was before. *)
Theorem setPointerTarget_direction object d s :
  d = "left" ∨ d = "right" ->
  completion (setPointerTarget object d) s = Normal tt ∧
  d ∈ pointerElementRef (this (exec (setPointerTarget object d) s)) ∧
  (∀ other, (other = "left" ∨ other = "right") -> other ≠ d ->
            other ∉ pointerElementRef (this (exec (setPointerTarget object d) s))) ∧
  (∀ c, c ≠ "left" -> c ≠ "right" ->
        c ∈ pointerElementRef (this (exec (setPointerTarget object d) s))
        ↔ c ∈ pointerElementRef (this s)) ∧
  pointAt (this (exec (setPointerTarget object d) s)) = Some object ∧
  pointOffset (this (exec (setPointerTarget object d) s)) = pointerOffset (this s).
Proof.
  intros Hd. run. setters. split_and!; try done.
  - apply addClass_elem. by left.
  - intros other Hother Hne. rewrite addClass_elem. intros [? | Hin]; [done|].
    destruct Hother as [-> | ->].
    + apply removeClass_other in Hin; [|done]. by apply removeClass_absent in Hin.
    + by apply removeClass_absent in Hin.
  - intros c Hl Hr. rewrite addClass_elem, !removeClass_other by done.
    split; [intros [-> | ?]; [by destruct Hd|done] | by right].
Qed.

Lemma setPointerTarget_direction_witness :
  "right" ∈ pointerElementRef (this (exec (setPointerTarget Mage "right") storeP)) ∧
  pointAt (this (exec (setPointerTarget Mage "right") storeP)) = Some Mage.
Proof.
  destruct (setPointerTarget_direction Mage "right" storeP (or_intror eq_refl))
    as (_ & Hin & _ & _ & Hp & _).
  by split.
Defined.

(** X11: [hidePointer] puts the class [hidden] on the pointer element and
    [showPointer] takes it off. Hiding twice is hiding once, and showing a
    pointer that was not hidden and has just been hidden gives back the
    class list it had. *)
Theorem hide_show_pointer s :
  "hidden" ∈ pointerElementRef (this (exec hidePointer s)) ∧
  ("hidden" ∉ pointerElementRef (this (exec showPointer s))) ∧
  exec (hidePointer ;;; hidePointer) s = exec hidePointer s ∧
  ("hidden" ∉ pointerElementRef (this s) ->
   pointerElementRef (this (exec (hidePointer ;;; showPointer) s))
   = pointerElementRef (this s)).
Proof.
  unfold hidePointer, showPointer, exec, bind, modify, with_this.
  cbn [fst snd the_machine this choices console]. setters.
  split_and!.
  - apply addClass_elem. by left.
  - apply removeClass_absent.
  - unfold addClass at 1.
    assert (Hex : existsb (String.eqb "hidden")
                    (addClass "hidden" (pointerElementRef (this s))) = true).
    { apply existsb_exists. exists "hidden". split; [|done].
      apply list_elem_of_In, addClass_elem. by left. }
    by rewrite Hex.
  - intros Hnotin. unfold addClass.
    destruct (existsb _ _) eqn:Hex.
    + apply existsb_exists in Hex as (c & Hin & Heq).
      apply String.eqb_eq in Heq as <-. by apply list_elem_of_In in Hin.
    + rewrite removeClass_app, (removeClass_not_in _ _ Hnotin). cbn.
      by rewrite app_nil_r.
Qed.

(** ** The pointer position *)

(** X12: The interval callback of the state component pushes a position exactly
    when something is pointed at and the combat component is injected.
    Right after [pointAtItem] on an item whose source is an entity, with or
    without a sub-machine, it pushes the projection of the entity's point
    relative to the camera, shifted by [pointerOffset]; for any other item
    what it pushes does not change. *)
Theorem pointAtItem_then_interval item s cv :
  (∀ combat c, ngAfterViewInit_interval combat c = None
               ↔ pointAt c = None ∨ combat = None) ∧
  match source item with
  | SourceEntity e =>
      ngAfterViewInit_interval (Some cv) (this (exec (pointAtItem item) s))
      = Some (worldToScreen cv
                (mkPoint
                   (point_x (point e) - point_x (camera_point cv)
                    + point_x (pointerOffset (this s)))%Q
                   (point_y (point e) - point_y (camera_point cv)
                    + point_y (pointerOffset (this s)))%Q)
                (cameraScale cv))
  | _ =>
      ngAfterViewInit_interval (Some cv) (this (exec (pointAtItem item) s))
      = ngAfterViewInit_interval (Some cv) (this s)
  end.
Proof.
  split.
  - intros combat c. unfold ngAfterViewInit_interval.
    destruct (pointAt c), combat; split; intros H;
      try done; try (by destruct H); try (by left); try (by right).
  - unfold pointAtItem. destruct (source item) as [e| |]; [|reflexivity..].
    run. setters. by destruct (_currentMachine (this s)).
Qed.

(** ** The pointer and the teardown of the combat component *)

(** X13: [tick] writes to the attached element the position that the interval
    callback of the state component pushes for the same target and offset. *)
Theorem tick_agrees_with_interval elapsed cv o off style td c :
  pointAt c = Some o ->
  pointOffset c = off ->
  (pointer (tick elapsed (mkView cv (Some (mkAttachment (Some o) off style)) td))
     ≫= element_style)
  = ngAfterViewInit_interval (Some cv) c.
Proof. intros Hp Ho. unfold ngAfterViewInit_interval. rewrite Hp, Ho. reflexivity. Qed.

Lemma tick_agrees_with_interval_witness :
  (pointer (tick 50 (mkView view0 (Some (mkAttachment (Some Goblin) origin None)) []))
     ≫= element_style)
  = ngAfterViewInit_interval (Some view0)
      (this (exec (pointAtItem goblin_item) storeB)).
Proof.
  apply (tick_agrees_with_interval 50 view0 Goblin origin None []
           (this (exec (pointAtItem goblin_item) storeB)));
    reflexivity.
Defined.

Lemma tick_component elapsed v : view_component (tick elapsed v) = view_component v.
Proof. destruct v as [cv [[[o|] off st]|] td]; reflexivity. Qed.

Lemma tick_tick e1 e2 v : tick e2 (tick e1 v) = tick e1 v.
Proof. destruct v as [cv [[[o|] off st]|] td]; reflexivity. Qed.

Lemma ticks_cons_absorb e l v : ticks (e :: l) v = tick e v.
Proof.
  revert e v. induction l as [|e' l IH]; intros e v; [done|].
  change (ticks (e' :: l) (tick e v) = tick e v). by rewrite IH, tick_tick.
Qed.

(** X14: Ticks only move the pointer: they never touch the component (camera,
    damages) or the teardown calls, the time elapsed does not matter, and
    any number of ticks in a row does what the first one does. Without a
    pointer, or with a pointer that has no object, a tick does nothing. *)
Theorem ticks_only_move_the_pointer e l v :
  ticks (e :: l) v = tick e v ∧
  view_component (tick e v) = view_component v ∧
  teardown (tick e v) = teardown v ∧
  (∀ e', tick e' v = tick e v) ∧
  ((pointer v ≫= object) = None -> tick e v = v).
Proof.
  split_and!.
  - apply ticks_cons_absorb.
  - apply tick_component.
  - destruct v as [cv [[[o|] off st]|] td]; reflexivity.
  - done.
  - destruct v as [cv [[[o|] off st]|] td]; intros H; (discriminate H || reflexivity).
Qed.

(** X15: After [ngOnDestroy] no damage is on display and there is no pointer, so
    ticks change nothing any more; the three teardown calls have been made,
    in the order of the source, after the earlier ones. *)
Theorem ngOnDestroy_stops_the_view l v :
  damages (view_component (ngOnDestroy v)) = [] ∧
  pointer (ngOnDestroy v) = None ∧
  ticks l (ngOnDestroy v) = ngOnDestroy v ∧
  teardown (ngOnDestroy v)
  = (teardown v ++ [world_erase; world_time_removeObject; scene_removeView])%list ∧
  ngOnDestroy (ticks l v) = ngOnDestroy v.
Proof.
  split_and!; try done.
  - induction l as [|e l IH]; [done|]. exact IH.
  - destruct l as [|e l]; [done|]. rewrite ticks_cons_absorb.
    destruct v as [cv [[[o|] off st]|] td]; reflexivity.
Qed.

(** ** Damage records *)





(** ** What each event shows *)

(** X17: Every event shows exactly one notification and obtains exactly one
    token; a damage record is added exactly for [combat:attack]; the run and
    defeat handlers never start a shake. The run message ends in "bravely
    ran away!" or "failed to escape!" according to [success], and the defeat
    message stays until acknowledged by calling [initGame]. *)
Theorem handlers_effects ev w :
  length (shown (_bindRenderCombat ev w)) = S (length (shown w)) ∧
  issued (gate (_bindRenderCombat ev w)) = S (issued (gate w)) ∧
  length (damages (combat (_bindRenderCombat ev w)))
    = (length (damages (combat w)) + (if is_attack ev then 1 else 0))%nat ∧
  (is_attack ev = false ->
   combat (_bindRenderCombat ev w) = combat w ∧
   shakes (_bindRenderCombat ev w) = shakes w) ∧
  match ev with
  | combat_attack _ => True
  | combat_run data =>
      last (shown (_bindRenderCombat ev w))
      = Some (mkNotification
                (model_name (player data)
                 ++ (if success data then " bravely ran away!" else " failed to escape!"))
                (CompletionToken (issued (gate w))) None)
  | combat_defeat _ =>
      last (shown (_bindRenderCombat ev w))
      = Some (mkNotification "Your party was defeated..."
                (InitGameThen (CompletionToken (issued (gate w)))) (Some 0))
  end.
Proof.
  destruct ev as [data|data|data]; cbn [_bindRenderCombat is_attack].
  - rewrite on_combat_attack_shown, on_combat_attack_damages, applyDamage_record.
    rewrite !length_app. cbn [length].
    split_and!; [lia | | lia | discriminate | done].
    unfold on_combat_attack, notifyWait, notify_show, applyDamage, shake, record.
    by destruct (_ && _).
  - unfold on_combat_run, notifyWait, notify_show, record. cbn.
    rewrite length_app, last_snoc. cbn.
    split_and!; [lia | done | lia | by destruct (combat w) | by destruct (success data)].
  - unfold on_combat_defeat, notifyWait, notify_show, record. cbn.
    rewrite length_app, last_snoc. cbn.
    split_and!; [lia | done | lia | by destruct (combat w) | done].
Qed.

(** ** When the machine may proceed *)

Lemma after_first_elem st l : is_Some (after_first st l) ↔ st ∈ l.
Proof.
  induction l as [|st' l IH].
  - cbn. split; [by intros [? ?] | by intros ?%not_elem_of_nil].
  - rewrite elem_of_cons. destruct st, st'; cbn [after_first];
      rewrite ?IH; split; try (intros [?|?]; done); eauto; try (by intros [?|?]).
Qed.

Lemma acknowledged_then_resolved_ack l :
  acknowledged_then_resolved (Acknowledge :: l) ↔ InitGameResolves ∈ l.
Proof.
  split.
  - intros (l1 & l2 & Heq & Hin). destruct l1 as [|st l1].
    + by injection Heq as ->.
    + injection Heq as _ ->. apply elem_of_app. right. by apply elem_of_cons; right.
  - intros Hin. by exists [], l.
Qed.

Lemma acknowledged_then_resolved_resolves l :
  acknowledged_then_resolved (InitGameResolves :: l) ↔ acknowledged_then_resolved l.
Proof.
  split.
  - intros (l1 & l2 & Heq & Hin). destruct l1 as [|st l1]; [discriminate|].
    injection Heq as _ ->. by exists l1, l2.
  - intros (l1 & l2 & -> & Hin). by exists (InitGameResolves :: l1), l2.
Qed.

Lemma acknowledged_then_resolved_after_first l :
  acknowledged_then_resolved l
  ↔ match after_first Acknowledge l with
    | Some l' => InitGameResolves ∈ l'
    | None => False
    end.
Proof.
  induction l as [|[] l IH].
  - cbn. split; [|done]. intros (l1 & l2 & Heq & _). by destruct l1.
  - apply acknowledged_then_resolved_ack.
  - rewrite acknowledged_then_resolved_resolves. exact IH.
Qed.

(** X18: For [combat:attack] and [combat:run], from a quiescent world: the
    machine may proceed exactly when the notification has been
    acknowledged. A shake that the attack started does not hold the machine
    back, and resolutions of [initGame] play no part. *)
Theorem attack_run_released_by_acknowledgement ev w stimuli :
  quiescent w ->
  handed_over ev (issued (gate w)) = CompletionToken (issued (gate w)) ->
  (may_proceed (run_stimuli stimuli (_bindRenderCombat ev w)) = true
   ↔ Acknowledge ∈ stimuli).
Proof.
  intros Hq Hcb.
  destruct (handler_shape ev w Hq) as (msg & dur & Hs & Hr & Ho & _ & _).
  rewrite Hcb in Hs.
  rewrite (run_stimuli_until_acknowledged stimuli _ Hr), <- after_first_elem.
  destruct (after_first Acknowledge stimuli) as [l'|].
  - rewrite run_stimuli_idle; cbn [react]; rewrite Hs; cbn; rewrite ?Hr; try done.
    unfold may_proceed. cbn. rewrite Ho, filter_release. split; [eauto | done].
  - unfold may_proceed. rewrite Ho. split; [done | by intros [? ?]].
Qed.

Lemma attack_run_released_by_acknowledgement_witness :
  may_proceed (run_stimuli [InitGameResolves; Acknowledge]
                 (_bindRenderCombat (combat_attack goblin_hits_warrior) world0)) = true
  ↔ Acknowledge ∈ [InitGameResolves; Acknowledge].
Proof.
  apply (attack_run_released_by_acknowledgement (combat_attack goblin_hits_warrior)
           world0 [InitGameResolves; Acknowledge]).
  - repeat split; reflexivity.
  - reflexivity.
Defined.

(** X19: For [combat:defeat], from a quiescent world: the machine may proceed
    exactly when the notification has been acknowledged and [initGame] has
    resolved after that. Acknowledging again, or a resolution that comes
    before the acknowledgement, does not release it. *)
Theorem defeat_released_by_resolution data w stimuli :
  quiescent w ->
  (may_proceed (run_stimuli stimuli (_bindRenderCombat (combat_defeat data) w)) = true
   ↔ acknowledged_then_resolved stimuli).
Proof.
  intros Hq.
  destruct (handler_shape (combat_defeat data) w Hq) as (msg & dur & Hs & Hr & Ho & _ & _).
  cbn [handed_over] in Hs.
  rewrite (run_stimuli_until_acknowledged stimuli _ Hr),
    acknowledged_then_resolved_after_first.
  destruct (after_first Acknowledge stimuli) as [l'|].
  2:{ unfold may_proceed. by rewrite Ho. }
  remember (_bindRenderCombat (combat_defeat data) w) as w1 eqn:Hw1. clear Hw1.
  assert (Hs2 : shown (react Acknowledge w1) = []) by (cbn; by rewrite Hs).
  assert (Hr2 : reinitialising (react Acknowledge w1)
                = [CompletionToken (issued (gate w))])
    by (cbn; rewrite Hs; cbn; by rewrite Hr).
  assert (Ho2 : outstanding (gate (react Acknowledge w1)) = [issued (gate w)])
    by (cbn; rewrite Hs; cbn; exact Ho).
  remember (react Acknowledge w1) as w2 eqn:Hw2. clear Hw2.
  rewrite (run_stimuli_until_resolved l' _ Hs2), <- after_first_elem.
  destruct (after_first InitGameResolves l') as [l''|].
  - rewrite run_stimuli_idle.
    + unfold may_proceed. cbn. rewrite Hr2. cbn.
      rewrite Ho2, filter_release. split; [eauto | done].
    + cbn. rewrite Hr2. cbn. exact Hs2.
    + cbn. by rewrite Hr2.
  - unfold may_proceed. rewrite Ho2. split; [done | by intros [? ?]].
Qed.

Lemma defeat_released_by_resolution_witness :
  may_proceed (run_stimuli [InitGameResolves; Acknowledge; Acknowledge]
                 (_bindRenderCombat (combat_defeat mkDefeatSummary) world0)) = true
  ↔ acknowledged_then_resolved [InitGameResolves; Acknowledge; Acknowledge].
Proof.
  apply (defeat_released_by_resolution mkDefeatSummary world0
           [InitGameResolves; Acknowledge; Acknowledge]).
  repeat split; reflexivity.
Defined.
